(** * PiSignage Pro: the playback engine of [main.py]

    A shallow embedding of the playback part of [main.py]: the in-memory
    catalog ([ContentScheduler]), the selection loop ([play_next]), the
    transition code of [VLCPlayerManager] and the observer fan-out
    ([notify_clients]), with the properties the specification states
    about them. *)

From Stdlib Require Import String List ZArith QArith Bool Lia Lqa.
Import ListNotations.
Open Scope Z_scope.

(** ** Python values used by the program *)

Module Py.

(** [l[i]] on a Python list: a negative index counts from the end, and
    an index outside [-len, len) raises [IndexError] (here [None]). *)
Definition list_index {A : Type} (l : list A) (i : Z) : option A :=
  let n := Z.of_nat (length l) in
  if (0 <=? i) && (i <? n) then nth_error l (Z.to_nat i)
  else if (- n <=? i) && (i <? 0) then nth_error l (Z.to_nat (n + i))
  else None.

(** [a % b] on Python integers: the result has the sign of the divisor,
    and a zero divisor raises [ZeroDivisionError] (here [None]). *)
Definition mod_ (a b : Z) : option Z :=
  if b =? 0 then None else Some (a mod b).

(** [int(a * i / steps)]: true division followed by truncation towards
    zero.  For integers of the size of a volume level the quotient is
    computed without rounding past an integer, so this is [Z.quot]. *)
Definition int_div (a b : Z) : Z := Z.quot a b.

(** [range(start, stop, -1)] counting down, and [range(start, stop)]. *)
Fixpoint range_down_from (n : nat) : list Z :=
  match n with
  | O => []
  | S k => Z.of_nat n :: range_down_from k
  end.

Definition range_up_to (n : nat) : list Z := rev (range_down_from n).

(** [list.remove(x)]: drops the first element equal to [x]; raises
    [ValueError] (here [None]) when there is none. *)
Fixpoint list_remove {A : Type} (eqb : A -> A -> bool) (x : A) (l : list A)
  : option (list A) :=
  match l with
  | [] => None
  | y :: l' =>
      if eqb x y then Some l'
      else option_map (cons y) (list_remove eqb x l')
  end.

End Py.

(** A Python [dict] with string keys.  Iteration follows insertion order,
    assigning to a key that is present keeps its position, and [del]
    removes the entry. *)
Module Dict.

Definition t (V : Type) : Type := list (string * V).

Definition empty {V : Type} : t V := [].

Fixpoint get {V : Type} (d : t V) (k : string) : option V :=
  match d with
  | [] => None
  | (k', v) :: d' => if String.eqb k k' then Some v else get d' k
  end.

Definition contains {V : Type} (d : t V) (k : string) : bool :=
  match get d k with Some _ => true | None => false end.

Fixpoint set {V : Type} (d : t V) (k : string) (v : V) : t V :=
  match d with
  | [] => [(k, v)]
  | (k', v') :: d' =>
      if String.eqb k k' then (k', v) :: d' else (k', v') :: set d' k v
  end.

Definition del {V : Type} (d : t V) (k : string) : t V :=
  filter (fun kv => negb (String.eqb k (fst kv))) d.

Definition values {V : Type} (d : t V) : list V := map snd d.

Definition keys {V : Type} (d : t V) : list string := map fst d.

End Dict.

(** ** Data model *)

Inductive ContentType : Type := IMAGE | VIDEO | WEB.

Record Content : Type := mkContent {
  id : string;
  name : string;
  type : ContentType;
  path : string;
  duration : Z;            (* seconds *)
  created_at : Z;
  file_hash : option string
}.

Record Schedule : Type := mkSchedule {
  sched_id : string;
  sched_name : string;
  content_ids : list string;
  start_time : option string;   (* cron format *)
  end_time : option string;
  enabled : bool;
  priority : Z
}.

(** ** Content scheduler: the catalog and the rotation state *)

Record ContentScheduler : Type := mkScheduler {
  current_playlist : list Content;
  current_index : Z;
  content_db : Dict.t Content;
  schedules : Dict.t Schedule
}.

(** [ContentScheduler.__init__] *)
Definition init : ContentScheduler :=
  {| current_playlist := [];
     current_index := 0;
     content_db := Dict.empty;
     schedules := Dict.empty |}.

Definition with_playlist (s : ContentScheduler) (l : list Content) :=
  {| current_playlist := l;
     current_index := current_index s;
     content_db := content_db s;
     schedules := schedules s |}.

Definition with_index (s : ContentScheduler) (i : Z) :=
  {| current_playlist := current_playlist s;
     current_index := i;
     content_db := content_db s;
     schedules := schedules s |}.

Definition with_content_db (s : ContentScheduler) (d : Dict.t Content) :=
  {| current_playlist := current_playlist s;
     current_index := current_index s;
     content_db := d;
     schedules := schedules s |}.

Definition with_schedules (s : ContentScheduler) (d : Dict.t Schedule) :=
  {| current_playlist := current_playlist s;
     current_index := current_index s;
     content_db := content_db s;
     schedules := d |}.

(** [add_content]: [self.content_db[content.id] = content] *)
Definition add_content (s : ContentScheduler) (content : Content) :=
  with_content_db s (Dict.set (content_db s) (id content) content).

(** [remove_content]: deletes the entry when the id is present. *)
Definition remove_content (s : ContentScheduler) (content_id : string) :=
  if Dict.contains (content_db s) content_id
  then with_content_db s (Dict.del (content_db s) content_id)
  else s.

(** The list comprehension of [update_playlist]:
    [[self.content_db[cid] for cid in content_ids if cid in self.content_db]].
    The subscript raises [KeyError] on a missing key (here [None]). *)
Fixpoint resolve_ids (db : Dict.t Content) (ids : list string)
  : option (list Content) :=
  match ids with
  | [] => Some []
  | cid :: rest =>
      if Dict.contains db cid then
        match Dict.get db cid with
        | None => None
        | Some c => option_map (cons c) (resolve_ids db rest)
        end
      else resolve_ids db rest
  end.

(** [update_playlist]: replaces the playlist and resets the cursor. *)
Definition update_playlist (s : ContentScheduler) (ids : list string)
  : option ContentScheduler :=
  match resolve_ids (content_db s) ids with
  | None => None
  | Some l => Some (with_index (with_playlist s l) 0)
  end.

(** The outcome of the first part of [play_next] (up to the indexed read). *)
Inductive selection : Type :=
| NoContent                  (* both the playlist and the catalog are empty *)
| Selected (c : Content)
| IndexError.                (* the subscript is out of range *)

Definition is_empty {A : Type} (l : list A) : bool :=
  match l with [] => true | _ => false end.

(** [play_next], from its first line to [content = self.current_playlist[...]]:
    an empty playlist is replaced by all known content, in the order of
    the content map. *)
Definition load_default (s : ContentScheduler) : ContentScheduler :=
  if is_empty (current_playlist s)
  then with_playlist s (Dict.values (content_db s))
  else s.

Definition play_next_select (s : ContentScheduler)
  : ContentScheduler * selection :=
  let s1 := load_default s in
  if is_empty (current_playlist s1) then (s1, NoContent)
  else match Py.list_index (current_playlist s1) (current_index s1) with
       | Some c => (s1, Selected c)
       | None => (s1, IndexError)
       end.

(** [self.current_index = (self.current_index + 1) % len(self.current_playlist)];
    [None] is [ZeroDivisionError]. *)
Definition play_next_advance (s : ContentScheduler) : option ContentScheduler :=
  match Py.mod_ (current_index s + 1)
                (Z.of_nat (length (current_playlist s))) with
  | None => None
  | Some i => Some (with_index s i)
  end.

(** ** The player manager

    The renderer itself (python-vlc, the browser process) is outside the
    program.  Its calls are recorded as events; which of them raise is
    left to an oracle, and the part of its state the program reads back
    ([is_playing], [audio_get_volume]) is kept in the manager record. *)

Inductive prim : Type :=
| PIsPlaying
| PGetVolume
| PSetVolume (v : Z)
| PMediaNew (location : string)
| PAddOption (location : string)
| PSetMedia (location : string)
| PPlay
| PPkill
| PPopen (url : string).

Record Renderer : Type := mkRenderer {
  raises : prim -> option string;   (* [Some e]: the call raises [e] *)
  play_status : Z                   (* what [player.play()] returns *)
}.

Inductive event : Type :=
| EvSetVolume (v : Z)
| EvSleep (seconds : Q)
| EvSetMedia (location : string)
| EvPlay
| EvKillBrowser
| EvBrowser (url : string)
| EvLogError (msg : string)
| EvSpawnPlayNext.

Record VLCPlayerManager : Type := mkPlayer {
  playing : bool;                   (* [self.player.is_playing()] *)
  volume : Z;                       (* [self.player.audio_get_volume()] *)
  current_media : option string;
  is_transitioning : bool
}.

(** [VLCPlayerManager.__init__] with the renderer's initial level. *)
Definition new_player (level : Z) : VLCPlayerManager :=
  {| playing := false; volume := level;
     current_media := None; is_transitioning := false |}.

(** Code that changes the manager, appends to the event trace and may
    raise. *)
Inductive result (A : Type) : Type :=
| Ok (a : A)
| Raise (e : string).
Arguments Ok {A} a.
Arguments Raise {A} e.

Definition M (A : Type) : Type :=
  VLCPlayerManager -> result A * VLCPlayerManager * list event.

Definition ret {A : Type} (a : A) : M A := fun pm => (Ok a, pm, []).

Definition bind {A B : Type} (m : M A) (k : A -> M B) : M B :=
  fun pm =>
    match m pm with
    | (Ok a, pm1, tr1) =>
        match k a pm1 with
        | (r, pm2, tr2) => (r, pm2, tr1 ++ tr2)
        end
    | (Raise e, pm1, tr1) => (Raise e, pm1, tr1)
    end.

Notation "x <- m ;; k" := (bind m (fun x => k))
  (at level 61, m at next level, right associativity).
Notation "m ;;; k" := (bind m (fun _ => k))
  (at level 61, right associativity).

(** [try: m except Exception as e: h e] *)
Definition try_except {A : Type} (m : M A) (h : string -> M A) : M A :=
  fun pm =>
    match m pm with
    | (Ok a, pm1, tr1) => (Ok a, pm1, tr1)
    | (Raise e, pm1, tr1) =>
        match h e pm1 with
        | (r, pm2, tr2) => (r, pm2, tr1 ++ tr2)
        end
    end.

Definition emit (e : event) : M unit := fun pm => (Ok tt, pm, [e]).

Definition modify (f : VLCPlayerManager -> VLCPlayerManager) : M unit :=
  fun pm => (Ok tt, f pm, []).

Definition read {A : Type} (f : VLCPlayerManager -> A) : M A :=
  fun pm => (Ok (f pm), pm, []).

Fixpoint for_each {A : Type} (l : list A) (body : A -> M unit) : M unit :=
  match l with
  | [] => ret tt
  | x :: l' => body x ;;; for_each l' body
  end.

Definition set_transitioning (b : bool) (pm : VLCPlayerManager) :=
  {| playing := playing pm; volume := volume pm;
     current_media := current_media pm; is_transitioning := b |}.

Definition set_volume (v : Z) (pm : VLCPlayerManager) :=
  {| playing := playing pm; volume := v;
     current_media := current_media pm; is_transitioning := is_transitioning pm |}.

Definition set_playing (b : bool) (pm : VLCPlayerManager) :=
  {| playing := b; volume := volume pm;
     current_media := current_media pm; is_transitioning := is_transitioning pm |}.

Definition set_current_media (m : option string) (pm : VLCPlayerManager) :=
  {| playing := playing pm; volume := volume pm;
     current_media := m; is_transitioning := is_transitioning pm |}.

Section Player.

Variable renderer : Renderer.

(** A renderer call: raises when the oracle says so. *)
Definition call (p : prim) : M unit :=
  fun pm =>
    match raises renderer p with
    | Some e => (Raise e, pm, [])
    | None => (Ok tt, pm, [])
    end.

Definition is_playing : M bool := call PIsPlaying ;;; read playing.

Definition audio_get_volume : M Z := call PGetVolume ;;; read volume.

Definition audio_set_volume (v : Z) : M unit :=
  call (PSetVolume v) ;;; modify (set_volume v) ;;; emit (EvSetVolume v).

Definition media_new (location : string) : M string :=
  call (PMediaNew location) ;;; ret location.

(** [self.player.play()]: returns the renderer's status, 0 when playback
    started and -1 when it did not. *)
Definition play : M Z :=
  call PPlay ;;;
  modify (set_playing (play_status renderer =? 0)) ;;;
  emit EvPlay ;;;
  ret (play_status renderer).

Definition sleep (seconds : Q) : M unit := emit (EvSleep seconds).

Definition steps : nat := 20.

(** [_fade_out(duration)]: [for i in range(steps, 0, -1)] *)
Definition _fade_out (fade : Q) : M unit :=
  current_volume <- audio_get_volume ;;
  for_each (Py.range_down_from steps) (fun i =>
    audio_set_volume (Py.int_div (current_volume * i) (Z.of_nat steps)) ;;;
    sleep (fade / inject_Z (Z.of_nat steps))).

(** [_fade_in(duration)]: [for i in range(1, steps + 1)] *)
Definition _fade_in (fade : Q) : M unit :=
  let target_volume := 100 in
  for_each (Py.range_up_to steps) (fun i =>
    audio_set_volume (Py.int_div (target_volume * i) (Z.of_nat steps)) ;;;
    sleep (fade / inject_Z (Z.of_nat steps))).

(** The default of the [duration] argument of both fades. *)
Definition default_fade : Q := 5 # 10.

(** [_show_web_content]: kills the running browser and starts a new one. *)
Definition _show_web_content (url : string) : M unit :=
  call PPkill ;;; emit EvKillBrowser ;;;
  call (PPopen url) ;;; emit (EvBrowser url).

(** The body of the [try] of [play_content].  The web branch returns
    from inside it, before [is_transitioning] is cleared. *)
Definition play_content_body (content : Content) : M unit :=
  modify (set_transitioning true) ;;;
  p <- is_playing ;;
  (if p : bool then _fade_out default_fade else ret tt) ;;;
  match type content with
  | WEB => _show_web_content (path content)
  | ty =>
      media <- media_new (path content) ;;
      (match ty with
       | VIDEO => call (PAddOption (path content))
       | _ => ret tt
       end) ;;;
      call (PSetMedia media) ;;; emit (EvSetMedia media) ;;;
      modify (set_current_media (Some media)) ;;;
      _status <- play ;;
      _fade_in default_fade ;;;
      modify (set_transitioning false)
  end.

Definition error_message (e : string) : string :=
  String.append "Error playing content: " e.

(** [play_content] *)
Definition play_content (content : Content) : M unit :=
  try_except (play_content_body content)
    (fun e => emit (EvLogError (error_message e)) ;;;
              modify (set_transitioning false)).

End Player.

(** ** The playback loop *)

(** How one run of [play_next] ends: it has scheduled its successor with
    [asyncio.create_task], or an exception has left it. *)
Inductive outcome : Type :=
| Spawned
| Failed (e : string).

(** The back-off of [play_next] when there is nothing to play. *)
Definition backoff : Q := inject_Z 5.

Section Loop.

Variable renderer : Renderer.

(** One run of [play_next] with nothing else running in between. *)
Definition play_next (s : ContentScheduler) (pm : VLCPlayerManager)
  : outcome * ContentScheduler * VLCPlayerManager * list event :=
  match play_next_select s with
  | (s1, NoContent) => (Spawned, s1, pm, [EvSleep backoff; EvSpawnPlayNext])
  | (s1, IndexError) => (Failed "IndexError", s1, pm, [])
  | (s1, Selected content) =>
      match play_content renderer content pm with
      | (Raise e, pm1, tr) => (Failed e, s1, pm1, tr)
      | (Ok _, pm1, tr) =>
          match play_next_advance s1 with
          | None => (Failed "ZeroDivisionError", s1, pm1, tr)
          | Some s2 =>
              (Spawned, s2, pm1,
               tr ++ [EvSleep (inject_Z (duration content)); EvSpawnPlayNext])
          end
      end
  end.

(** [n] successive runs of [play_next]; stops when a run fails. *)
Fixpoint run_loop (n : nat) (s : ContentScheduler) (pm : VLCPlayerManager)
  : outcome * ContentScheduler * VLCPlayerManager * list event :=
  match n with
  | O => (Spawned, s, pm, [])
  | S k =>
      match play_next s pm with
      | (Spawned, s1, pm1, tr1) =>
          match run_loop k s1 pm1 with
          | (o, s2, pm2, tr2) => (o, s2, pm2, tr1 ++ tr2)
          end
      | failed => failed
      end
  end.

End Loop.


(** The trace of a fade loop: for each step the level set, then the sleep. *)
Definition fade_trace (level_at : Z -> Z) (pause : Q) (l : list Z) : list event :=
  flat_map (fun i => [EvSetVolume (level_at i); EvSleep pause]) l.

(** Seconds slept in a trace. *)
Fixpoint elapsed (tr : list event) : Q :=
  match tr with
  | [] => 0
  | EvSleep d :: tr' => d + elapsed tr'
  | _ :: tr' => elapsed tr'
  end.

(** The levels passed to [audio_set_volume], in order. *)
Fixpoint levels (tr : list event) : list Z :=
  match tr with
  | [] => []
  | EvSetVolume v :: tr' => v :: levels tr'
  | _ :: tr' => levels tr'
  end.

(** The part of a trace that follows the first logged error. *)
Fixpoint after_error (tr : list event) : option (list event) :=
  match tr with
  | [] => None
  | EvLogError _ :: tr' => Some tr'
  | _ :: tr' => after_error tr'
  end.

(** ** The loop running together with the request handlers

    [play_next] gives up control at each [await]; the handlers of the API
    ([add_content], [remove_content], [update_playlist]) run at those
    points, and nowhere else. *)

Inductive api_call : Type :=
| AddContent (content : Content)
| RemoveContent (content_id : string)
| UpdatePlaylist (ids : list string).

(** Where the [play_next] task stands. *)
Inductive task : Type :=
| Ready                                  (* created, not yet started *)
| InPlay (content : Content) (remaining : Q)   (* in [await play_content] *)
| Sleeping (content : Content) (remaining : Q) (* in [await asyncio.sleep(duration)] *)
| Backoff (remaining : Q)                (* in [await asyncio.sleep(5)] *)
| Crashed (e : string).                  (* an exception left the task *)

Record System : Type := mkSystem {
  sched : ContentScheduler;
  player : VLCPlayerManager;
  loop : task;
  now : Q;
  selections : list (Q * Content)        (* what was selected, and when; latest first *)
}.

Inductive action : Type :=
| Api (a : api_call)       (* a handler runs *)
| Tick (dt : Q)            (* time passes *)
| Resume.                  (* the task continues after its wait is over *)

Definition apply_api (a : api_call) (s : ContentScheduler)
  : option ContentScheduler :=
  match a with
  | AddContent c => Some (add_content s c)
  | RemoveContent cid => Some (remove_content s cid)
  | UpdatePlaylist ids => update_playlist s ids
  end.

Definition remaining_of (t : task) : option Q :=
  match t with
  | InPlay _ r | Sleeping _ r | Backoff r => Some r
  | Ready | Crashed _ => None
  end.

Definition with_remaining (t : task) (r : Q) : task :=
  match t with
  | InPlay c _ => InPlay c r
  | Sleeping c _ => Sleeping c r
  | Backoff _ => Backoff r
  | other => other
  end.

Definition expired (r : Q) : bool := Qle_bool r 0.

Section Interleaving.

Variable renderer : Renderer.

Definition with_loop (y : System) (s : ContentScheduler) (t : task) : System :=
  {| sched := s; player := player y; loop := t; now := now y;
     selections := selections y |}.

(** The task continues: from [Ready] up to [await play_content], from
    there to [await asyncio.sleep], and from a finished sleep to the
    successor task.  [None]: the task is still waiting, or dead. *)
Definition resume (y : System) : option System :=
  match loop y with
  | Ready =>
      match play_next_select (sched y) with
      | (s1, NoContent) => Some (with_loop y s1 (Backoff backoff))
      | (s1, IndexError) => Some (with_loop y s1 (Crashed "IndexError"))
      | (s1, Selected c) =>
          match play_content renderer c (player y) with
          | (Raise e, pm1, _) =>
              Some {| sched := s1; player := pm1; loop := Crashed e;
                      now := now y; selections := (now y, c) :: selections y |}
          | (Ok _, pm1, tr) =>
              Some {| sched := s1; player := pm1;
                      loop := InPlay c (Qred (elapsed tr));
                      now := now y; selections := (now y, c) :: selections y |}
          end
      end
  | InPlay c r =>
      if expired r then
        match play_next_advance (sched y) with
        | None => Some (with_loop y (sched y) (Crashed "ZeroDivisionError"))
        | Some s2 => Some (with_loop y s2 (Sleeping c (inject_Z (duration c))))
        end
      else None
  | Sleeping c r => if expired r then Some (with_loop y (sched y) Ready) else None
  | Backoff r => if expired r then Some (with_loop y (sched y) Ready) else None
  | Crashed _ => None
  end.

(** Time passes, by no more than the running wait has left. *)
Definition tick (dt : Q) (y : System) : option System :=
  match remaining_of (loop y) with
  | Some r =>
      if Qle_bool 0 dt && Qle_bool dt r then
        Some {| sched := sched y; player := player y;
                loop := with_remaining (loop y) (Qred (r - dt));
                now := Qred (now y + dt); selections := selections y |}
      else None
  | None => None
  end.

Definition exec (a : action) (y : System) : option System :=
  match a with
  | Api c =>
      match apply_api c (sched y) with
      | Some s => Some (with_loop y s (loop y))
      | None => None
      end
  | Tick dt => tick dt y
  | Resume => resume y
  end.

Fixpoint exec_all (l : list action) (y : System) : option System :=
  match l with
  | [] => Some y
  | a :: l' =>
      match exec a y with
      | Some y' => exec_all l' y'
      | None => None
      end
  end.

(** The system at start-up: [startup_event] calls [scheduler.start()]. *)
Definition boot (level : Z) : System :=
  {| sched := init; player := new_player level; loop := Ready;
     now := 0; selections := [] |}.

Inductive reachable (level : Z) : System -> Prop :=
| reach_boot : reachable level (boot level)
| reach_step : forall y a y',
    reachable level y -> exec a y = Some y' -> reachable level y'.

End Interleaving.

(** ** The event sink: [notify_clients] *)

Module EventSink.

(** A connected websocket, identified by its object identity. *)
Definition Client : Type := nat.

Section Notify.

Variable Message : Type.
(** [client.send_json(message)]: [false] when the call raises. *)
Variable send_json : Client -> Message -> bool.

(** The first loop: every client is sent the message; the ones whose
    send raised are collected.  Returns the sends attempted, with
    their result, and [disconnected]. *)
Fixpoint send_loop (clients : list Client) (message : Message)
         (attempts : list (Client * bool)) (disconnected : list Client)
  : list (Client * bool) * list Client :=
  match clients with
  | [] => (attempts, disconnected)
  | client :: rest =>
      if send_json client message
      then send_loop rest message (attempts ++ [(client, true)]) disconnected
      else send_loop rest message (attempts ++ [(client, false)])
                     (disconnected ++ [client])
  end.

(** The second loop: [websocket_clients.remove(client)] for each
    collected client; [None] when a [remove] raises [ValueError]. *)
Fixpoint remove_loop (disconnected : list Client)
         (websocket_clients : list Client) : option (list Client) :=
  match disconnected with
  | [] => Some websocket_clients
  | client :: rest =>
      match Py.list_remove Nat.eqb client websocket_clients with
      | None => None
      | Some l => remove_loop rest l
      end
  end.

(** [notify_clients]: the subscriber list afterwards, and the sends. *)
Definition notify_clients (websocket_clients : list Client)
           (message : Message)
  : option (list Client) * list (Client * bool) :=
  match send_loop websocket_clients message [] [] with
  | (attempts, disconnected) =>
      (remove_loop disconnected websocket_clients, attempts)
  end.

(** The clients that received the message. *)
Definition delivered (attempts : list (Client * bool)) : list Client :=
  map fst (filter snd attempts).

End Notify.

End EventSink.

(** ** What the specification asks of the selector and of the driver

    These definitions follow the words of the specification, not the
    program; they are what the program is compared with. *)

Module Spec.

Section Selector.

(** Whether the time [now] lies in the recurring window of a Schedule
    that has one: the evaluation of the cron rules is not part of
    the program. *)
Variable in_window : Schedule -> Z -> bool.

Definition windowless (sch : Schedule) : bool :=
  match start_time sch, end_time sch with
  | None, None => true
  | _, _ => false
  end.

(** Enabled and, at [now], inside its window or windowless. *)
Definition active (now : Z) (sch : Schedule) : bool :=
  enabled sch && (windowless sch || in_window sch now).

Definition active_schedules (now : Z) (d : Dict.t Schedule) : list Schedule :=
  filter (active now) (Dict.values d).

(** Highest priority; among equals the one created last, creation
    order being the order of the schedule map. *)
Definition better (acc : option Schedule) (sch : Schedule) : option Schedule :=
  match acc with
  | None => Some sch
  | Some b => if priority b <=? priority sch then Some sch else Some b
  end.

Definition winner (l : list Schedule) : option Schedule :=
  fold_left better l None.

(** The selection uses the content list of the winning active
    Schedule: what is selected is one of its ids. *)
Definition schedule_governs_selection (now : Z) (s : ContentScheduler) : Prop :=
  forall sch c,
    winner (active_schedules now (schedules s)) = Some sch ->
    snd (play_next_select s) = Selected c ->
    In (id c) (content_ids sch).

End Selector.

(** Selection never fails and never returns an id that the content map
    no longer holds. *)
Definition tolerates_dangling (s : ContentScheduler) : Prop :=
  snd (play_next_select s) <> IndexError /\
  forall c, snd (play_next_select s) = Selected c ->
            Dict.contains (content_db s) (id c) = true.

(** Deleting [content_id] makes the driver select again before [bound]
    seconds have passed. *)
Definition preempts_within (renderer : Renderer) (bound : Q) (y : System)
           (content_id : string) : Prop :=
  exists dt y',
    (0 <= dt)%Q /\ (dt < bound)%Q /\
    exec_all renderer [Api (RemoveContent content_id); Tick dt; Resume] y
    = Some y'.

(** After a failed load the driver goes on to the next selection without
    waiting. *)
Definition advances_immediately (renderer : Renderer) (s : ContentScheduler)
           (pm : VLCPlayerManager) : Prop :=
  forall tr', after_error (snd (play_next renderer s pm)) = Some tr' ->
              (elapsed tr' == 0)%Q.

(** The fade-out ends at level zero. *)
Definition fades_to_zero (renderer : Renderer) (pm : VLCPlayerManager) : Prop :=
  volume (snd (fst (_fade_out renderer (default_fade) pm))) = 0.

End Spec.

(** ** Concrete catalogs and renderers used below *)

Module Examples.

Definition item (i : string) (ty : ContentType) (d : Z) : Content :=
  {| id := i; name := i; type := ty; path := String.append "/content/" i;
     duration := d; created_at := 0; file_hash := None |}.

Definition A : Content := item "a" IMAGE 10.
Definition B : Content := item "b" IMAGE 10.

(** A renderer on which no call raises and playback starts. *)
Definition quiet : Renderer :=
  {| raises := fun _ => None; play_status := 0 |}.

(** A renderer that cannot load the file of [A]. *)
Definition poison : Renderer :=
  {| raises := fun p =>
       match p with
       | PMediaNew l => if String.eqb l (path A) then Some "cannot open"%string else None
       | _ => None
       end;
     play_status := 0 |}.

(** A renderer whose [play()] reports failure (-1) without raising. *)
Definition refusing : Renderer :=
  {| raises := fun _ => None; play_status := -1 |}.

(** An always-active Schedule of priority 10 for [B]. *)
Definition S : Schedule :=
  {| sched_id := "s"; sched_name := "s"; content_ids := ["b"%string];
     start_time := None; end_time := None; enabled := true; priority := 10 |}.

(** Catalog [{a, b}], no playlist set, and the Schedule [S] stored. *)
Definition with_schedule : ContentScheduler :=
  with_schedules (add_content (add_content init A) B) (Dict.set Dict.empty "s" S).

(** [A] added, made the playlist, then deleted. *)
Definition deleted_after_playlist : ContentScheduler :=
  match update_playlist (add_content init A) ["a"%string] with
  | Some s => remove_content s "a"
  | None => init
  end.

(** Playlist [[A]] on catalog [{a}]. *)
Definition only_a : ContentScheduler :=
  {| current_playlist := [A]; current_index := 0;
     content_db := Dict.set Dict.empty "a" A; schedules := Dict.empty |}.

(** The system while [A] is on screen: selected at second 5, its
    ten seconds of display just begun. *)
Definition showing_a : System :=
  {| sched := only_a;
     player := {| playing := true; volume := 100;
                  current_media := Some (path A); is_transitioning := false |};
     loop := Sleeping A (inject_Z 10);
     now := 11 # 2;
     selections := [(inject_Z 5, A)] |}.

(** How [showing_a] comes about from start-up. *)
Definition script : list action :=
  [Resume; Api (AddContent A); Tick (inject_Z 5); Resume; Resume;
   Tick (1 # 2); Resume].

End Examples.

(** ** The invariant of the rotation state

    The cursor is inside the playlist, or the playlist is empty and the
    cursor is 0. *)
Definition cursor_ok (s : ContentScheduler) : bool :=
  if is_empty (current_playlist s) then current_index s =? 0
  else (0 <=? current_index s)
       && (current_index s <? Z.of_nat (length (current_playlist s))).

(** The handlers that only delete Content, and time passing. *)
Definition delete_or_tick (a : action) : bool :=
  match a with
  | Api (RemoveContent _) => true
  | Tick _ => true
  | _ => false
  end.

(** Time passed by a list of actions. *)
Fixpoint ticked (l : list action) : Q :=
  match l with
  | [] => 0
  | Tick dt :: l' => dt + ticked l'
  | _ :: l' => ticked l'
  end.

(** A piece of player code leaves a part of the manager as it was, however
    it ends. *)
Definition keeps {A B : Type} (part : VLCPlayerManager -> B) (m : M A) : Prop :=
  forall pm r pm' tr, m pm = (r, pm', tr) -> part pm' = part pm.

(** A piece of player code emits only events that satisfy [allowed]. *)
Definition emits_only {A : Type} (allowed : event -> bool) (m : M A) : Prop :=
  forall pm r pm' tr, m pm = (r, pm', tr) -> forallb allowed tr = true.

(** The events that concern the browser. *)
Definition browser_event (e : event) : bool :=
  match e with
  | EvKillBrowser | EvBrowser _ => true
  | _ => false
  end.

(** The events that concern the media player. *)
Definition media_event (e : event) : bool :=
  match e with
  | EvSetMedia _ | EvPlay => true
  | _ => false
  end.

(** ** The catalog's key discipline

    Every entry of the content map sits under the id of its Content, and
    no key occurs twice. *)
Definition well_keyed (db : Dict.t Content) : Prop :=
  NoDup (Dict.keys db) /\ Forall (fun kv => id (snd kv) = fst kv) db.

(** Actions other than a playlist update. *)
Definition no_playlist_update (a : action) : bool :=
  match a with
  | Api (UpdatePlaylist _) => false
  | _ => true
  end.

(** ** The websocket endpoint and the request handlers *)

Module Api.

(** What is published to the observers. *)
Inductive message : Type :=
| content_added (content : Content)
| content_deleted (content_id : string)
| playlist_updated (content_ids : list string).

(** The exceptions the handlers meet. *)
Inductive exn : Type :=
| HTTPException (status_code : Z) (detail : string)
| AttributeError        (* [None.startswith] *)
| KeyError
| ValueError            (* [list.remove] of an absent element *)
| OSError (what : string).

(** A handler returns a value or raises. *)
Inductive response (A : Type) : Type :=
| Return (a : A)
| Raised (e : exn).
Arguments Return {A} a.
Arguments Raised {A} e.

(** Calls on the file system, in order. *)
Inductive fs_event : Type :=
| FsWrite (file_path : string)
| FsThumbnail (thumb_path : string)
| FsRemove (file_path : string).

(** The globals of the application: [scheduler] and [websocket_clients]. *)
Record App : Type := mkApp {
  scheduler : ContentScheduler;
  websocket_clients : list EventSink.Client
}.

(** [websocket_endpoint], on connection: [websocket_clients.append(websocket)] *)
Definition websocket_connect (websocket : EventSink.Client) (app : App) : App :=
  {| scheduler := scheduler app;
     websocket_clients := websocket_clients app ++ [websocket] |}.

(** [websocket_endpoint], on [WebSocketDisconnect]:
    [websocket_clients.remove(websocket)]; [None] is [ValueError]. *)
Definition websocket_disconnect (websocket : EventSink.Client) (app : App)
  : option App :=
  match Py.list_remove Nat.eqb websocket (websocket_clients app) with
  | None => None
  | Some l => Some {| scheduler := scheduler app; websocket_clients := l |}
  end.

(** An uploaded file, as the handler reads it. *)
Record UploadFile : Type := mkUpload {
  filename : option string;
  content_type : option string
}.

Section Handlers.

(** [client.send_json(message)]: [false] when the call raises. *)
Variable send_json : EventSink.Client -> message -> bool.

(** What a handler did besides answering: the application afterwards, the
    calls on the file system and the sends to the observers. *)
Definition outcome (A : Type) : Type :=
  response A * App * list fs_event * list (EventSink.Client * bool).

(** [await notify_clients(message)] inside a handler, followed by [k]. *)
Definition notify_then {A : Type} (s : ContentScheduler) (clients : list EventSink.Client)
  (fs : list fs_event) (m : message) (k : response A) : outcome A :=
  match EventSink.notify_clients message send_json clients m with
  | (Some remaining, attempts) =>
      (k, {| scheduler := s; websocket_clients := remaining |}, fs, attempts)
  | (None, attempts) =>
      (Raised ValueError, {| scheduler := s; websocket_clients := clients |},
       fs, attempts)
  end.

(** [list_content] *)
Definition list_content (app : App) : list Content :=
  Dict.values (content_db (scheduler app)).

(** [delete_content]: 404 for an unknown id; otherwise the file is removed
    (errors ignored), the entry deleted and the observers told. *)
Definition delete_content (app : App) (content_id : string) : outcome string :=
  if negb (Dict.contains (content_db (scheduler app)) content_id) then
    (Raised (HTTPException 404 "Content not found"), app, [], [])
  else
    match Dict.get (content_db (scheduler app)) content_id with
    | None => (Raised KeyError, app, [], [])
    | Some content =>
        notify_then (remove_content (scheduler app) content_id)
                    (websocket_clients app)
                    [FsRemove (path content)]
                    (content_deleted content_id)
                    (Return "deleted"%string)
    end.

(** The handler [update_playlist] of [POST /api/playlist]. *)
Definition post_playlist (app : App) (ids : list string) : outcome string :=
  match update_playlist (scheduler app) ids with
  | None => (Raised KeyError, app, [], [])
  | Some s =>
      notify_then s (websocket_clients app) [] (playlist_updated ids)
                  (Return "updated"%string)
  end.

(** What [upload_content] takes from outside the program. *)
Variable str : exn -> string.                  (* [str(e)] *)
Variable md5_hexdigest : string -> string.     (* [hashlib.md5(...).hexdigest()] *)
Variable path_join : string -> string -> string.   (* [save_dir / filename] *)
Variable images_dir videos_dir : string.       (* [CONTENT_DIR / "images"], [".../videos"] *)
Variable write_fails : string -> option string.     (* saving the file raises *)
Variable thumbnail_fails : string -> option string. (* PIL raises on the file *)

(** The first step of [upload_content]: the kind of the file and the
    directory it is saved in. *)
Definition classify (file : UploadFile) : response (ContentType * string) :=
  match content_type file with
  | None => Raised AttributeError
  | Some ct =>
      if String.prefix "image/" ct then Return (IMAGE, images_dir)
      else if String.prefix "video/" ct then Return (VIDEO, videos_dir)
      else Raised (HTTPException 400 "Unsupported file type")
  end.

(** The body of the [try] of [upload_content].  [new_id] and [now_] are
    the values [uuid.uuid4()] and [datetime.now()] give the new Content.
    The file-system events are the calls made, the one that raised
    included. *)
Definition upload_body (app : App) (file : UploadFile) (duration_ : Z)
  (new_id : string) (now_ : Z) : outcome Content :=
  match classify file with
  | Raised e => (Raised e, app, [], [])
  | Return (ty, save_dir) =>
      match filename file with
      | None => (Raised AttributeError, app, [], [])
      | Some fname =>
          let file_hash_ := String.substring 0 8 (md5_hexdigest fname) in
          let filename_ := String.append file_hash_ (String.append "_" fname) in
          let file_path := path_join save_dir filename_ in
          match write_fails file_path with
          | Some what => (Raised (OSError what), app, [FsWrite file_path], [])
          | None =>
              let thumb_path := path_join save_dir (String.append "thumb_" filename_) in
              let fs := match ty with
                        | IMAGE => [FsWrite file_path; FsThumbnail thumb_path]
                        | _ => [FsWrite file_path]
                        end in
              let thumb :=
                match ty with
                | IMAGE => thumbnail_fails file_path
                | _ => None
                end in
              match thumb with
              | Some what => (Raised (OSError what), app, fs, [])
              | None =>
                  let content :=
                    {| id := new_id; name := fname; type := ty;
                       path := file_path; duration := duration_;
                       created_at := now_; file_hash := Some file_hash_ |} in
                  notify_then (add_content (scheduler app) content)
                              (websocket_clients app) fs
                              (content_added content) (Return content)
              end
          end
      end
  end.

(** [upload_content]: whatever the body raises is answered with status 500. *)
Definition upload_content (app : App) (file : UploadFile) (duration_ : Z)
  (new_id : string) (now_ : Z) : outcome Content :=
  match upload_body app file duration_ new_id now_ with
  | (Raised e, app1, fs, sends) =>
      (Raised (HTTPException 500 (str e)), app1, fs, sends)
  | returned => returned
  end.

End Handlers.

End Api.

(** The system while the first selection, [A] of the default rotation
    [[A; B]], is being loaded: [play_content] has just finished and the
    run of [play_next] is about to continue. *)
Definition loading_a_of_two : System :=
  {| sched := {| current_playlist := [Examples.A; Examples.B];
                 current_index := 0;
                 content_db := Dict.set (Dict.set Dict.empty "a" Examples.A)
                                        "b" Examples.B;
                 schedules := Dict.empty |};
     player := {| playing := true; volume := 100;
                  current_media := Some (path Examples.A);
                  is_transitioning := false |};
     loop := InPlay Examples.A 0;
     now := 1 # 2;
     selections := [(0%Q, Examples.A)] |}.

(** * Properties *)

(** ** Lists and dictionaries *)

Lemma list_index_In {A : Type} (l : list A) (i : Z) (x : A) :
  Py.list_index l i = Some x -> In x l.
Proof.
  unfold Py.list_index.
  destruct ((0 <=? i) && (i <? Z.of_nat (length l))).
  - apply nth_error_In.
  - destruct ((- Z.of_nat (length l) <=? i) && (i <? 0)).
    + apply nth_error_In.
    + discriminate.
Qed.

Lemma list_index_in_range {A : Type} (l : list A) (i : Z) :
  0 <= i < Z.of_nat (length l) ->
  exists x, Py.list_index l i = Some x /\ nth_error l (Z.to_nat i) = Some x.
Proof.
  intros Hi. unfold Py.list_index.
  replace ((0 <=? i) && (i <? Z.of_nat (length l))) with true
    by (symmetry; apply andb_true_iff; split; [apply Z.leb_le | apply Z.ltb_lt]; lia).
  destruct (nth_error l (Z.to_nat i)) as [x|] eqn:E.
  - exists x. split; reflexivity.
  - apply nth_error_None in E. lia.
Qed.

Lemma is_empty_true {A : Type} (l : list A) : is_empty l = true <-> l = [].
Proof. destruct l; simpl; split; congruence. Qed.

Lemma is_empty_false {A : Type} (l : list A) : is_empty l = false <-> l <> [].
Proof. destruct l; simpl; split; congruence. Qed.

Lemma get_del_same {V : Type} (d : Dict.t V) (k : string) :
  Dict.get (Dict.del d k) k = None.
Proof.
  induction d as [|[k' v] d IH]; simpl; [reflexivity|].
  destruct (String.eqb k k') eqn:E; simpl; [exact IH|].
  rewrite E. exact IH.
Qed.

Lemma get_del_other {V : Type} (d : Dict.t V) (k k' : string) :
  k' <> k -> Dict.get (Dict.del d k) k' = Dict.get d k'.
Proof.
  intros Hne. induction d as [|[k0 v] d IH]; simpl; [reflexivity|].
  destruct (String.eqb k k0) eqn:E; simpl.
  - apply String.eqb_eq in E. subst k0.
    destruct (String.eqb k' k) eqn:E'; [apply String.eqb_eq in E'; contradiction|].
    exact IH.
  - rewrite IH. reflexivity.
Qed.

Lemma del_absent {V : Type} (d : Dict.t V) (k : string) :
  Dict.contains d k = false -> Dict.del d k = d.
Proof.
  unfold Dict.contains.
  induction d as [|[k' v] d IH]; simpl; [reflexivity|].
  destruct (String.eqb k k') eqn:E; simpl; [discriminate|].
  intros H. rewrite (IH H). reflexivity.
Qed.

Lemma contains_get {V : Type} (d : Dict.t V) (k : string) :
  Dict.contains d k = true <-> exists v, Dict.get d k = Some v.
Proof.
  unfold Dict.contains. destruct (Dict.get d k) as [v|]; split.
  - intros _. exists v. reflexivity.
  - reflexivity.
  - discriminate.
  - intros [v H]. discriminate.
Qed.

(** ** [remove_content] *)

Lemma remove_content_frame (s : ContentScheduler) (cid : string) :
  current_playlist (remove_content s cid) = current_playlist s /\
  current_index (remove_content s cid) = current_index s /\
  schedules (remove_content s cid) = schedules s.
Proof.
  unfold remove_content.
  destruct (Dict.contains (content_db s) cid); simpl; repeat split.
Qed.

Lemma remove_content_db (s : ContentScheduler) (cid : string) :
  content_db (remove_content s cid) = Dict.del (content_db s) cid.
Proof.
  unfold remove_content.
  destruct (Dict.contains (content_db s) cid) eqn:E; simpl; [reflexivity|].
  symmetry. apply del_absent. exact E.
Qed.

Lemma select_nonempty_playlist (s : ContentScheduler) :
  current_playlist s <> [] ->
  play_next_select s =
    (s, match Py.list_index (current_playlist s) (current_index s) with
        | Some c => Selected c
        | None => IndexError
        end).
Proof.
  intros Hne. apply is_empty_false in Hne.
  unfold play_next_select, load_default. rewrite Hne. rewrite Hne.
  destruct (Py.list_index (current_playlist s) (current_index s)); reflexivity.
Qed.

Lemma select_fst (s : ContentScheduler) :
  fst (play_next_select s) = load_default s.
Proof.
  unfold play_next_select.
  destruct (is_empty (current_playlist (load_default s))); [reflexivity|].
  destruct (Py.list_index _ _); reflexivity.
Qed.

(** C10. [remove_content] changes nothing but the entry of the given id in
    the content map: the playlist, the cursor and the schedules stay as
    they are, every other entry of the map stays, an unknown id leaves the
    scheduler as it is, and as long as the playlist is not empty the next
    selection is the one it was before the removal, so that a Content
    held by the playlist is still selected after it has left the map. *)
Theorem remove_content_only_edits_map (s : ContentScheduler) (cid : string) :
  current_playlist (remove_content s cid) = current_playlist s /\
  current_index (remove_content s cid) = current_index s /\
  schedules (remove_content s cid) = schedules s /\
  Dict.get (content_db (remove_content s cid)) cid = None /\
  (forall k, k <> cid ->
     Dict.get (content_db (remove_content s cid)) k = Dict.get (content_db s) k) /\
  (Dict.contains (content_db s) cid = false -> remove_content s cid = s) /\
  (current_playlist s <> [] ->
     snd (play_next_select (remove_content s cid)) = snd (play_next_select s) /\
     forall c, snd (play_next_select s) = Selected c ->
               In c (current_playlist (remove_content s cid))).
Proof.
  destruct (remove_content_frame s cid) as (Hp & Hi & Hs).
  repeat split; try assumption.
  - rewrite remove_content_db. apply get_del_same.
  - intros k Hk. rewrite remove_content_db. apply get_del_other. exact Hk.
  - intros H. unfold remove_content. rewrite H. reflexivity.
  - rewrite (select_nonempty_playlist s H).
    rewrite select_nonempty_playlist by (rewrite Hp; exact H).
    rewrite Hp, Hi. reflexivity.
  - intros c Hc. rewrite Hp.
    rewrite (select_nonempty_playlist s H) in Hc. simpl in Hc.
    destruct (Py.list_index (current_playlist s) (current_index s)) eqn:E;
      [|discriminate].
    injection Hc as ->. eapply list_index_In. exact E.
Qed.

(** ** [update_playlist] and dangling ids *)

Lemma resolve_ids_total (db : Dict.t Content) (ids : list string) :
  exists l, resolve_ids db ids = Some l.
Proof.
  induction ids as [|cid rest [l IH]]; simpl.
  - exists []. reflexivity.
  - destruct (Dict.contains db cid) eqn:E.
    + apply contains_get in E. destruct E as [c Hc]. rewrite Hc, IH.
      exists (c :: l). reflexivity.
    + exists l. exact IH.
Qed.

Lemma resolve_ids_sound (db : Dict.t Content) (ids : list string) (l : list Content) :
  resolve_ids db ids = Some l ->
  forall c, In c l -> exists cid, In cid ids /\ Dict.get db cid = Some c.
Proof.
  revert l. induction ids as [|cid rest IH]; simpl; intros l H c Hc.
  - injection H as <-. destruct Hc.
  - destruct (Dict.contains db cid) eqn:E.
    + destruct (Dict.get db cid) as [c0|] eqn:G; [|discriminate].
      destruct (resolve_ids db rest) as [l'|]; [|discriminate].
      injection H as <-. destruct Hc as [-> | Hc].
      * exists cid. split; [left; reflexivity | exact G].
      * destruct (IH l' eq_refl c Hc) as (k & Hk & Hg).
        exists k. split; [right; exact Hk | exact Hg].
    + destruct (IH l H c Hc) as (k & Hk & Hg).
      exists k. split; [right; exact Hk | exact Hg].
Qed.

Lemma resolve_ids_complete (db : Dict.t Content) (ids : list string) (l : list Content) :
  resolve_ids db ids = Some l ->
  forall cid c, In cid ids -> Dict.get db cid = Some c -> In c l.
Proof.
  revert l. induction ids as [|k rest IH]; simpl; intros l H cid c Hin Hg.
  - destruct Hin.
  - destruct (Dict.contains db k) eqn:E.
    + destruct (Dict.get db k) as [c0|] eqn:G; [|discriminate].
      destruct (resolve_ids db rest) as [l'|]; [|discriminate].
      injection H as <-. destruct Hin as [-> | Hin].
      * left. congruence.
      * right. eapply IH; eauto.
    + destruct Hin as [-> | Hin].
      * unfold Dict.contains in E. rewrite Hg in E. discriminate.
      * eapply IH; eauto.
Qed.

Lemma resolve_ids_all_dangling (db : Dict.t Content) (ids : list string) :
  (forall cid, In cid ids -> Dict.contains db cid = false) ->
  resolve_ids db ids = Some [].
Proof.
  induction ids as [|k rest IH]; simpl; intros H; [reflexivity|].
  rewrite (H k (or_introl eq_refl)). apply IH.
  intros cid Hc. apply H. right. exact Hc.
Qed.

Lemma select_at_zero (s : ContentScheduler) :
  current_index s = 0 -> snd (play_next_select s) <> IndexError.
Proof.
  intros Hi. unfold play_next_select.
  destruct (is_empty (current_playlist (load_default s))) eqn:E; simpl;
    [discriminate|].
  assert (Hidx : current_index (load_default s) = 0).
  { unfold load_default. destruct (is_empty (current_playlist s)); simpl; exact Hi. }
  rewrite Hidx.
  destruct (current_playlist (load_default s)) as [|c l]; [discriminate|].
  simpl. discriminate.
Qed.

(** C3 (as amended). [update_playlist] never fails; the playlist it forms
    holds exactly the Content that the given ids resolve to in the content
    map at that moment, the ids that do not resolve being skipped; when
    none resolves the playlist is empty and the next selection falls back
    to all Content of the map; and the selection that follows does not
    fail. *)
Theorem update_playlist_skips_dangling (s : ContentScheduler) (ids : list string) :
  exists s',
    update_playlist s ids = Some s' /\
    (forall c, In c (current_playlist s') ->
       exists cid, In cid ids /\ Dict.get (content_db s) cid = Some c) /\
    (forall cid c, In cid ids -> Dict.get (content_db s) cid = Some c ->
       In c (current_playlist s')) /\
    ((forall cid, In cid ids -> Dict.contains (content_db s) cid = false) ->
       current_playlist s' = [] /\
       current_playlist (fst (play_next_select s')) = Dict.values (content_db s)) /\
    snd (play_next_select s') <> IndexError.
Proof.
  unfold update_playlist.
  destruct (resolve_ids_total (content_db s) ids) as [l Hl]. rewrite Hl.
  eexists. split; [reflexivity|].
  split; [|split; [|split]].
  - apply resolve_ids_sound. exact Hl.
  - apply resolve_ids_complete. exact Hl.
  - intros H. apply resolve_ids_all_dangling in H.
    assert (l = []) as -> by congruence.
    split; [reflexivity|]. rewrite select_fst. reflexivity.
  - apply select_at_zero. reflexivity.
Qed.

(** C3, as stated, fails: with [A] added, made the playlist and then
    deleted, the selection returns [A], whose id the content map no longer
    holds. *)
Lemma deleted_content_still_selected :
  ~ Spec.tolerates_dangling Examples.deleted_after_playlist.
Proof.
  intros [_ H].
  specialize (H Examples.A eq_refl). vm_compute in H. discriminate.
Qed.

(** ** Selection and the schedules *)

Lemma load_default_with_schedules (s : ContentScheduler) (d : Dict.t Schedule) :
  load_default (with_schedules s d) = with_schedules (load_default s) d.
Proof.
  unfold load_default. simpl.
  destruct (is_empty (current_playlist s)); reflexivity.
Qed.

(** C1 (as amended). The selection never consults the Schedules: whatever
    the schedule map holds, [play_next] selects the same Content and
    leaves the same playlist and cursor.  The sequence it selects from is
    the current playlist, or, only when that is empty, all Content of the
    content map in insertion order. *)
Theorem selection_ignores_schedules (s : ContentScheduler) (d : Dict.t Schedule) :
  play_next_select (with_schedules s d) =
    (with_schedules (fst (play_next_select s)) d, snd (play_next_select s)) /\
  current_playlist (fst (play_next_select s)) =
    (if is_empty (current_playlist s)
     then Dict.values (content_db s) else current_playlist s) /\
  (forall c, snd (play_next_select s) = Selected c ->
     In c (current_playlist (fst (play_next_select s)))).
Proof.
  repeat split.
  - unfold play_next_select. rewrite load_default_with_schedules. simpl.
    destruct (is_empty (current_playlist (load_default s))); [reflexivity|].
    destruct (Py.list_index _ _); reflexivity.
  - unfold play_next_select.
    assert (E : current_playlist (load_default s) =
                if is_empty (current_playlist s)
                then Dict.values (content_db s) else current_playlist s).
    { unfold load_default. destruct (is_empty (current_playlist s)); reflexivity. }
    destruct (is_empty (current_playlist (load_default s))); [exact E|].
    destruct (Py.list_index _ _); exact E.
  - intros c. unfold play_next_select.
    destruct (is_empty (current_playlist (load_default s))); simpl; [discriminate|].
    destruct (Py.list_index _ _) eqn:E; simpl; [|discriminate].
    intros H. injection H as ->. eapply list_index_In. exact E.
Qed.

(** C1, as stated, fails: with the always-active Schedule [S] of priority
    10 for [b] stored, and the catalog [{a, b}], the selection is [a]. *)
Lemma active_schedule_not_consulted :
  ~ Spec.schedule_governs_selection (fun _ _ => false) 0 Examples.with_schedule.
Proof.
  intros H.
  specialize (H Examples.S Examples.A eq_refl eq_refl).
  simpl in H. destruct H as [H | []]. discriminate.
Qed.

(** ** The cursor stays inside the playlist *)

Lemma cursor_ok_spec (s : ContentScheduler) :
  cursor_ok s = true <->
  (current_playlist s = [] /\ current_index s = 0) \/
  (current_playlist s <> [] /\
   0 <= current_index s < Z.of_nat (length (current_playlist s))).
Proof.
  unfold cursor_ok. destruct (current_playlist s) as [|c l]; simpl is_empty; cbv iota.
  - rewrite Z.eqb_eq. split.
    + intros H. left. split; [reflexivity | exact H].
    + intros [[_ H] | [H _]]; [exact H | congruence].
  - rewrite andb_true_iff, Z.leb_le, Z.ltb_lt. split.
    + intros H. right. split; [discriminate | exact H].
    + intros [[H _] | [_ H]]; [discriminate | exact H].
Qed.

Lemma cursor_ok_load_default (s : ContentScheduler) :
  cursor_ok s = true -> cursor_ok (load_default s) = true.
Proof.
  intros H. unfold load_default.
  destruct (is_empty (current_playlist s)) eqn:E; [|exact H].
  apply is_empty_true in E.
  apply cursor_ok_spec in H. destruct H as [[_ Hi] | [Hne _]]; [|congruence].
  apply cursor_ok_spec. simpl.
  destruct (Dict.values (content_db s)) as [|c l] eqn:V.
  - left. split; [reflexivity | exact Hi].
  - right. split; [discriminate|]. rewrite Hi. simpl length. lia.
Qed.

Lemma cursor_ok_advance (s s' : ContentScheduler) :
  play_next_advance s = Some s' -> cursor_ok s' = true.
Proof.
  unfold play_next_advance, Py.mod_.
  destruct (Z.of_nat (length (current_playlist s)) =? 0) eqn:E; [discriminate|].
  intros H. injection H as <-. apply Z.eqb_neq in E.
  apply cursor_ok_spec. right. simpl. split.
  - intros Hnil. rewrite Hnil in E. simpl in E. congruence.
  - apply Z.mod_pos_bound. lia.
Qed.

Lemma cursor_ok_api (a : api_call) (s s' : ContentScheduler) :
  cursor_ok s = true -> apply_api a s = Some s' -> cursor_ok s' = true.
Proof.
  intros H. destruct a as [c | cid | ids]; simpl; intros E.
  - injection E as <-. exact H.
  - injection E as <-. unfold remove_content.
    destruct (Dict.contains (content_db s) cid); exact H.
  - unfold update_playlist in E.
    destruct (resolve_ids (content_db s) ids) as [l|]; [|discriminate].
    injection E as <-. apply cursor_ok_spec. simpl.
    destruct l as [|c l].
    + left. split; reflexivity.
    + right. split; [discriminate|]. simpl length. lia.
Qed.

Lemma cursor_ok_resume (renderer : Renderer) (y y' : System) :
  cursor_ok (sched y) = true -> resume renderer y = Some y' ->
  cursor_ok (sched y') = true.
Proof.
  intros H. unfold resume.
  destruct (loop y) as [ | c r | c r | r | e].
  - pose proof (select_fst (sched y)) as F.
    pose proof (cursor_ok_load_default _ H) as L.
    destruct (play_next_select (sched y)) as [s1 sel]. simpl in F. subst s1.
    destruct sel as [ | c | ].
    + intros E. injection E as <-. exact L.
    + destruct (play_content renderer c (player y)) as [[[u|e] pm1] tr];
        intros E; injection E as <-; exact L.
    + intros E. injection E as <-. exact L.
  - destruct (expired r); [|discriminate].
    destruct (play_next_advance (sched y)) as [s2|] eqn:A;
      intros E; injection E as <-; simpl.
    + eapply cursor_ok_advance. exact A.
    + exact H.
  - destruct (expired r); [|discriminate]. intros E. injection E as <-. exact H.
  - destruct (expired r); [|discriminate]. intros E. injection E as <-. exact H.
  - discriminate.
Qed.

Lemma cursor_ok_exec (renderer : Renderer) (a : action) (y y' : System) :
  cursor_ok (sched y) = true -> exec renderer a y = Some y' ->
  cursor_ok (sched y') = true.
Proof.
  intros H. destruct a as [c | dt | ]; simpl.
  - destruct (apply_api c (sched y)) as [s|] eqn:A; [|discriminate].
    intros E. injection E as <-. simpl. eapply cursor_ok_api; eauto.
  - unfold tick. destruct (remaining_of (loop y)) as [r|]; [|discriminate].
    destruct (Qle_bool 0 dt && Qle_bool dt r); [|discriminate].
    intros E. injection E as <-. exact H.
  - apply cursor_ok_resume. exact H.
Qed.

Lemma reachable_cursor_ok (renderer : Renderer) (level : Z) (y : System) :
  reachable renderer level y -> cursor_ok (sched y) = true.
Proof.
  induction 1 as [| y a y' _ IH E].
  - reflexivity.
  - eapply cursor_ok_exec; eauto.
Qed.

Lemma exec_all_reachable (renderer : Renderer) (level : Z) (l : list action) :
  forall y y', reachable renderer level y -> exec_all renderer l y = Some y' ->
               reachable renderer level y'.
Proof.
  induction l as [|a l IH]; simpl; intros y y' R E.
  - injection E as <-. exact R.
  - destruct (exec renderer a y) as [y1|] eqn:X; [|discriminate].
    apply (IH y1 y'); [|exact E]. eapply reach_step; eauto.
Qed.

Lemma select_in_bounds (s s1 : ContentScheduler) (sel : selection) :
  cursor_ok s = true -> play_next_select s = (s1, sel) ->
  sel <> IndexError /\
  forall c, sel = Selected c ->
    current_playlist s1 <> [] /\
    0 <= current_index s1 < Z.of_nat (length (current_playlist s1)) /\
    nth_error (current_playlist s1) (Z.to_nat (current_index s1)) = Some c.
Proof.
  intros H E.
  pose proof (select_fst s) as F. rewrite E in F. simpl in F. subst s1.
  apply cursor_ok_load_default in H. apply cursor_ok_spec in H.
  unfold play_next_select in E.
  destruct (is_empty (current_playlist (load_default s))) eqn:Em.
  - injection E as <-. split; [discriminate | intros c Hc; discriminate].
  - apply is_empty_false in Em.
    destruct H as [[Hnil _] | [_ Hb]]; [contradiction|].
    destruct (list_index_in_range _ _ Hb) as (x & Hx & Hn).
    rewrite Hx in E. injection E as <-.
    split; [discriminate|]. intros c Hc. injection Hc as <-.
    repeat split; try assumption; lia.
Qed.

(** C9. In every state the system reaches from start-up, through any
    interleaving of [add_content], [remove_content] and [update_playlist]
    with the steps of the playback loop, the indexed read of [play_next]
    is in bounds: the selection is never an [IndexError], and when a
    Content is read the playlist is not empty and the cursor is at least 0
    and less than its length. *)
Theorem indexed_read_in_bounds (renderer : Renderer) (level : Z) (y : System)
  (s1 : ContentScheduler) (sel : selection) :
  reachable renderer level y ->
  play_next_select (sched y) = (s1, sel) ->
  sel <> IndexError /\
  forall c, sel = Selected c ->
    current_playlist s1 <> [] /\
    0 <= current_index s1 < Z.of_nat (length (current_playlist s1)) /\
    nth_error (current_playlist s1) (Z.to_nat (current_index s1)) = Some c.
Proof.
  intros R E. eapply select_in_bounds; [|exact E].
  eapply reachable_cursor_ok. exact R.
Qed.

(** C9 at a concrete state: the system showing [A], reached from start-up
    by [Examples.script]. *)
Lemma indexed_read_in_bounds_witness :
  reachable Examples.quiet 50 Examples.showing_a /\
  (Selected Examples.A <> IndexError /\
   forall c, Selected Examples.A = Selected c ->
     current_playlist Examples.only_a <> [] /\
     0 <= current_index Examples.only_a
       < Z.of_nat (length (current_playlist Examples.only_a)) /\
     nth_error (current_playlist Examples.only_a)
               (Z.to_nat (current_index Examples.only_a)) = Some c).
Proof.
  assert (R : reachable Examples.quiet 50 Examples.showing_a).
  { apply (exec_all_reachable Examples.quiet 50 Examples.script (boot 50)).
    - apply reach_boot.
    - vm_compute. reflexivity. }
  split; [exact R|].
  exact (indexed_read_in_bounds Examples.quiet 50 Examples.showing_a
           Examples.only_a (Selected Examples.A) R eq_refl).
Defined.

(** ** [play_content] never lets an exception out *)

Lemma play_content_raised (renderer : Renderer) (content : Content)
  (pm pm1 : VLCPlayerManager) (e : string) (tr1 : list event) :
  play_content_body renderer content pm = (Raise e, pm1, tr1) ->
  play_content renderer content pm =
    (Ok tt, set_transitioning false pm1, tr1 ++ [EvLogError (error_message e)]).
Proof.
  intros H. unfold play_content, try_except. rewrite H. reflexivity.
Qed.

Lemma play_content_returns (renderer : Renderer) (content : Content)
  (pm : VLCPlayerManager) :
  exists pm' tr, play_content renderer content pm = (Ok tt, pm', tr).
Proof.
  destruct (play_content_body renderer content pm) as [[[[]|e] pm1] tr1] eqn:B.
  - exists pm1, tr1. unfold play_content, try_except. rewrite B. reflexivity.
  - eexists _, _. apply play_content_raised. exact B.
Qed.

(** ** The cursor: reset and advance *)

Lemma load_default_index (s : ContentScheduler) :
  current_index (load_default s) = current_index s.
Proof.
  unfold load_default. destruct (is_empty (current_playlist s)); reflexivity.
Qed.

Lemma load_default_nonempty (s : ContentScheduler) :
  current_playlist s <> [] -> load_default s = s.
Proof.
  intros H. apply is_empty_false in H. unfold load_default. rewrite H. reflexivity.
Qed.

Lemma advance_spec (s s' : ContentScheduler) :
  play_next_advance s = Some s' ->
  current_playlist s' = current_playlist s /\
  current_index s' =
    (current_index s + 1) mod Z.of_nat (length (current_playlist s)).
Proof.
  unfold play_next_advance, Py.mod_.
  destruct (Z.of_nat (length (current_playlist s)) =? 0); [discriminate|].
  intros H. injection H as <-. split; reflexivity.
Qed.

Lemma advance_nonempty (s : ContentScheduler) :
  current_playlist s <> [] -> exists s', play_next_advance s = Some s'.
Proof.
  intros H. unfold play_next_advance, Py.mod_.
  destruct (Z.of_nat (length (current_playlist s)) =? 0) eqn:E.
  - apply Z.eqb_eq in E. destruct (current_playlist s); [congruence|].
    simpl in E. lia.
  - eexists. reflexivity.
Qed.

Lemma playlist_change_resets (renderer : Renderer) (level : Z) (y y' : System)
  (a : action) :
  reachable renderer level y -> exec renderer a y = Some y' ->
  current_playlist (sched y') <> current_playlist (sched y) ->
  current_index (sched y') = 0.
Proof.
  intros R E Hne. apply reachable_cursor_ok in R.
  destruct a as [[c | cid | ids] | dt | ]; simpl in E.
  - injection E as <-. simpl in Hne. congruence.
  - injection E as <-. simpl in Hne.
    destruct (remove_content_frame (sched y) cid) as [Hp _]. congruence.
  - unfold update_playlist in E.
    destruct (resolve_ids (content_db (sched y)) ids); [|discriminate].
    injection E as <-. reflexivity.
  - unfold tick in E. destruct (remaining_of (loop y)) as [r|]; [|discriminate].
    destruct (Qle_bool 0 dt && Qle_bool dt r); [|discriminate].
    injection E as <-. simpl in Hne. congruence.
  - unfold resume in E. destruct (loop y) as [ | c r | c r | r | e].
    + assert (S1 : sched y' = load_default (sched y)).
      { pose proof (select_fst (sched y)) as F.
        destruct (play_next_select (sched y)) as [s1 [ | c | ]]; simpl in F; subst s1.
        - injection E as <-. reflexivity.
        - destruct (play_content renderer c (player y)) as [[[u|e] pm1] tr];
            injection E as <-; reflexivity.
        - injection E as <-. reflexivity. }
      rewrite S1 in *. rewrite load_default_index.
      apply cursor_ok_spec in R. destruct R as [[_ Hi] | [Hn _]]; [exact Hi|].
      rewrite (load_default_nonempty _ Hn) in Hne. congruence.
    + destruct (expired r); [|discriminate].
      destruct (play_next_advance (sched y)) as [s2|] eqn:A;
        injection E as <-; simpl in Hne; [|congruence].
      apply advance_spec in A. destruct A as [Hp _]. congruence.
    + destruct (expired r); [|discriminate]. injection E as <-. simpl in Hne. congruence.
    + destruct (expired r); [|discriminate]. injection E as <-. simpl in Hne. congruence.
    + discriminate.
Qed.

Lemma play_next_advances (renderer : Renderer) (s : ContentScheduler)
  (pm : VLCPlayerManager) :
  current_playlist s <> [] ->
  0 <= current_index s < Z.of_nat (length (current_playlist s)) ->
  exists c pm' tr s2,
    play_next renderer s pm = (Spawned, s2, pm', tr) /\
    nth_error (current_playlist s) (Z.to_nat (current_index s)) = Some c /\
    current_playlist s2 = current_playlist s /\
    current_index s2 =
      (current_index s + 1) mod Z.of_nat (length (current_playlist s)).
Proof.
  intros Hne Hb. unfold play_next.
  rewrite (select_nonempty_playlist s Hne).
  destruct (list_index_in_range _ _ Hb) as (c & Hc & Hn). rewrite Hc.
  destruct (play_content_returns renderer c pm) as (pm' & tr & P). rewrite P.
  destruct (advance_nonempty s Hne) as [s2 A]. rewrite A.
  destruct (advance_spec _ _ A) as [Hp Hi].
  exists c, pm', (tr ++ [EvSleep (inject_Z (duration c)); EvSpawnPlayNext]), s2.
  repeat split; assumption.
Qed.

(** The cursor at the steps themselves.  Whenever a step of the running
    system leaves a playlist different from the one before, the cursor is
    0 right after that step ([update_playlist] sets it, and the default
    playlist is loaded only at cursor 0); and a run of [play_next] with
    no handler in between, on a non-empty playlist, reads the entry at
    the cursor, keeps the playlist and moves the cursor to the cursor
    plus one modulo the length of the playlist. *)
Theorem cursor_reset_and_advance :
  (forall renderer level y a y',
     reachable renderer level y -> exec renderer a y = Some y' ->
     current_playlist (sched y') <> current_playlist (sched y) ->
     current_index (sched y') = 0) /\
  (forall s ids s', update_playlist s ids = Some s' -> current_index s' = 0) /\
  (forall renderer s pm,
     current_playlist s <> [] ->
     0 <= current_index s < Z.of_nat (length (current_playlist s)) ->
     exists c pm' tr s2,
       play_next renderer s pm = (Spawned, s2, pm', tr) /\
       nth_error (current_playlist s) (Z.to_nat (current_index s)) = Some c /\
       current_playlist s2 = current_playlist s /\
       current_index s2 =
         (current_index s + 1) mod Z.of_nat (length (current_playlist s))).
Proof.
  split; [|split].
  - intros renderer level y a y'. apply playlist_change_resets.
  - intros s ids s' H. unfold update_playlist in H.
    destruct (resolve_ids (content_db s) ids); [|discriminate].
    injection H as <-. reflexivity.
  - exact play_next_advances.
Qed.

(** The same at concrete inputs: a playlist update on the catalog [{a}],
    and a run of [play_next] on the playlist [[A]]. *)
Lemma cursor_reset_and_advance_witness :
  current_index Examples.only_a = 0 /\
  exists c pm' tr s2,
    play_next Examples.quiet Examples.only_a (new_player 50)
    = (Spawned, s2, pm', tr) /\
    nth_error (current_playlist Examples.only_a)
              (Z.to_nat (current_index Examples.only_a)) = Some c /\
    current_playlist s2 = current_playlist Examples.only_a /\
    current_index s2 =
      (current_index Examples.only_a + 1)
        mod Z.of_nat (length (current_playlist Examples.only_a)).
Proof.
  destruct cursor_reset_and_advance as (_ & Hreset & Hadv). split.
  - apply (Hreset (add_content init Examples.A) ["a"%string] Examples.only_a).
    reflexivity.
  - apply Hadv.
    + simpl. discriminate.
    + simpl. lia.
Defined.

(** A playlist update that arrives while [play_content] is awaited finds
    its fresh cursor advanced by the run in flight: the next selection is
    the second entry of the new playlist. *)
Lemma update_during_play_skips_first :
  exists y,
    exec_all Examples.quiet
      [Api (AddContent Examples.A); Api (AddContent Examples.B); Resume;
       Api (UpdatePlaylist ["b"; "a"]%string); Tick (1 # 2); Resume;
       Tick (inject_Z 10); Resume] (boot 50) = Some y /\
    current_playlist (sched y) = [Examples.B; Examples.A] /\
    snd (play_next_select (sched y)) = Selected Examples.A.
Proof.
  eexists. split; [vm_compute; reflexivity|]. split; reflexivity.
Qed.

Lemma advance_from_zero (s : ContentScheduler) (first second : Content)
  (rest : list Content) :
  current_playlist s = first :: second :: rest ->
  current_index s = 0 ->
  play_next_advance s = Some (with_index s 1).
Proof.
  intros Hp Hi. unfold play_next_advance, Py.mod_. rewrite Hp, Hi.
  assert (Hn : 2 <= Z.of_nat (length (first :: second :: rest)))
    by (simpl length; lia).
  destruct (Z.of_nat (length (first :: second :: rest)) =? 0) eqn:E.
  - apply Z.eqb_eq in E. lia.
  - rewrite Z.mod_small by lia. reflexivity.
Qed.

(** C4. The reset of the cursor is lost when the playlist changes while a
    selection is being played.  If [update_playlist] installs a playlist
    of two entries or more while the loop awaits [play_content], it sets
    the cursor to 0, but the run in flight then continues with
    [(current_index + 1) % len(current_playlist)] on the new playlist:
    the cursor is 1 when the run goes to sleep, and the selection that
    follows is the second entry of the new playlist, its first entry
    being passed over. *)
Theorem update_in_flight_loses_reset (renderer : Renderer) (y : System)
  (c : Content) (r : Q) (ids : list string) (first second : Content)
  (rest : list Content) :
  loop y = InPlay c r ->
  expired r = true ->
  resolve_ids (content_db (sched y)) ids = Some (first :: second :: rest) ->
  exists y0 y1,
    exec renderer (Api (UpdatePlaylist ids)) y = Some y0 /\
    current_playlist (sched y0) = first :: second :: rest /\
    current_index (sched y0) = 0 /\
    exec renderer Resume y0 = Some y1 /\
    loop y1 = Sleeping c (inject_Z (duration c)) /\
    current_playlist (sched y1) = first :: second :: rest /\
    current_index (sched y1) = 1 /\
    selections y1 = selections y /\
    snd (play_next_select (sched y1)) = Selected second.
Proof.
  intros L X R.
  set (s0 := with_index (with_playlist (sched y) (first :: second :: rest)) 0).
  assert (U : update_playlist (sched y) ids = Some s0).
  { unfold update_playlist. rewrite R. reflexivity. }
  assert (A : play_next_advance s0 = Some (with_index s0 1)).
  { apply (advance_from_zero s0 first second rest); reflexivity. }
  exists (with_loop y s0 (loop y)),
         (with_loop (with_loop y s0 (loop y)) (with_index s0 1)
                    (Sleeping c (inject_Z (duration c)))).
  split; [simpl; rewrite U; reflexivity|].
  split; [reflexivity|]. split; [reflexivity|].
  split.
  { simpl. unfold resume. cbn [loop with_loop sched]. rewrite L, X, A. reflexivity. }
  split; [reflexivity|]. split; [reflexivity|]. split; [reflexivity|].
  split; [reflexivity|].
  cbn [sched with_loop].
  rewrite select_nonempty_playlist by (simpl; discriminate).
  assert (Hb : 0 <= current_index (with_index s0 1)
               < Z.of_nat (length (current_playlist (with_index s0 1))))
    by (simpl; lia).
  destruct (list_index_in_range _ _ Hb) as (x & Hx & Hn).
  rewrite Hx. simpl in Hn. injection Hn as <-. reflexivity.
Qed.

(** C4 at a concrete run.  From start-up [A] and [B] are uploaded and the
    loop selects [A] from the default rotation [[A; B]]; while [A] is
    being loaded the playlist is set to [[B; A]].  The cursor is 0 after
    the update and 1 once the run has continued: the next selection is
    [A] again, and [B], the first entry of the new playlist, is passed
    over. *)
Lemma update_in_flight_loses_reset_witness :
  exec_all Examples.quiet
    [Api (AddContent Examples.A); Api (AddContent Examples.B); Resume;
     Tick (1 # 2)] (boot 50) = Some loading_a_of_two /\
  exists y0 y1,
    exec Examples.quiet (Api (UpdatePlaylist ["b"; "a"]%string)) loading_a_of_two
    = Some y0 /\
    current_playlist (sched y0) = [Examples.B; Examples.A] /\
    current_index (sched y0) = 0 /\
    exec Examples.quiet Resume y0 = Some y1 /\
    loop y1 = Sleeping Examples.A (inject_Z (duration Examples.A)) /\
    current_playlist (sched y1) = [Examples.B; Examples.A] /\
    current_index (sched y1) = 1 /\
    selections y1 = selections loading_a_of_two /\
    snd (play_next_select (sched y1)) = Selected Examples.A.
Proof.
  split; [vm_compute; reflexivity|].
  apply (update_in_flight_loses_reset Examples.quiet loading_a_of_two
           Examples.A 0 ["b"; "a"]%string Examples.B Examples.A []);
    reflexivity.
Defined.

(** ** The empty catalog *)





(** ** A load that fails *)

Lemma selected_nonempty (s s1 : ContentScheduler) (c : Content) :
  play_next_select s = (s1, Selected c) -> current_playlist s1 <> [].
Proof.
  intros E. pose proof (select_fst s) as F. rewrite E in F. simpl in F. subst s1.
  unfold play_next_select in E.
  destruct (is_empty (current_playlist (load_default s))) eqn:Em; [discriminate|].
  apply is_empty_false. exact Em.
Qed.

(** C7 (as amended). When the load of the selected Content raises, the
    error is logged, [play_next] ends normally with its successor
    scheduled (no exception leaves [play_content]), [is_transitioning] is
    cleared, and the cursor moves to the next position of the playlist;
    the run still sleeps the failed item's configured duration before the
    successor is scheduled. *)
Theorem failed_load_logged_then_waited (renderer : Renderer)
  (s s1 : ContentScheduler) (content : Content) (pm pm1 : VLCPlayerManager)
  (e : string) (tr1 : list event) :
  play_next_select s = (s1, Selected content) ->
  play_content_body renderer content pm = (Raise e, pm1, tr1) ->
  exists s2 pm2,
    play_next renderer s pm =
      (Spawned, s2, pm2,
       (tr1 ++ [EvLogError (error_message e)])
         ++ [EvSleep (inject_Z (duration content)); EvSpawnPlayNext]) /\
    is_transitioning pm2 = false /\
    current_playlist s2 = current_playlist s1 /\
    current_index s2 =
      (current_index s1 + 1) mod Z.of_nat (length (current_playlist s1)).
Proof.
  intros Sel Body.
  destruct (advance_nonempty s1 (selected_nonempty _ _ _ Sel)) as [s2 A].
  destruct (advance_spec _ _ A) as [Hp Hi].
  exists s2, (set_transitioning false pm1).
  unfold play_next. rewrite Sel.
  rewrite (play_content_raised _ _ _ _ _ _ Body). rewrite A.
  repeat split; assumption.
Qed.

(** C7 at a concrete input: the playlist [[A]] on a renderer that cannot
    open the file of [A]. *)
Lemma failed_load_logged_then_waited_witness :
  exists s2 pm2,
    play_next Examples.poison Examples.only_a (new_player 50) =
      (Spawned, s2, pm2,
       ([] ++ [EvLogError (error_message "cannot open")])
         ++ [EvSleep (inject_Z (duration Examples.A)); EvSpawnPlayNext]) /\
    is_transitioning pm2 = false /\
    current_playlist s2 = current_playlist Examples.only_a /\
    current_index s2 =
      (current_index Examples.only_a + 1)
        mod Z.of_nat (length (current_playlist Examples.only_a)).
Proof.
  apply (failed_load_logged_then_waited Examples.poison Examples.only_a
           Examples.only_a Examples.A (new_player 50)
           (set_transitioning true (new_player 50)) "cannot open" []);
    reflexivity.
Defined.

(** C7, as stated, fails: after the failed load of [A] (10 seconds) the
    driver sleeps those 10 seconds before it selects again, and the
    selection that follows is [A] once more; and a [play()] that reports
    failure without raising is not logged at all. *)
Lemma failed_load_still_waited :
  ~ Spec.advances_immediately Examples.poison Examples.only_a (new_player 50) /\
  snd (play_next_select
         (snd (fst (fst (play_next Examples.poison Examples.only_a (new_player 50))))))
  = Selected Examples.A /\
  after_error (snd (play_next Examples.refusing Examples.only_a (new_player 50)))
  = None.
Proof.
  split; [|split; reflexivity].
  intros H.
  specialize (H [EvSleep (inject_Z 10); EvSpawnPlayNext] eq_refl).
  vm_compute in H. discriminate.
Qed.

(** ** The fades *)

Lemma fade_loop (level_at : Z -> Z) (pause : Q) (l : list Z) :
  forall pm,
    for_each l (fun i =>
      audio_set_volume Examples.quiet (level_at i) ;;; sleep pause) pm
    = (Ok tt,
       match rev l with
       | [] => pm
       | i :: _ => set_volume (level_at i) pm
       end,
       fade_trace level_at pause l).
Proof.
  induction l as [|i l IH]; intros pm; [reflexivity|].
  change (for_each (i :: l) ?body)
    with (body i ;;; for_each l body).
  unfold bind at 1.
  change ((audio_set_volume Examples.quiet (level_at i) ;;; sleep pause) pm)
    with (Ok tt, set_volume (level_at i) pm,
          [EvSetVolume (level_at i); EvSleep pause]).
  cbv beta iota. rewrite IH. simpl rev.
  destruct (rev l) as [|j l']; reflexivity.
Qed.

Lemma elapsed_fade_trace (level_at : Z -> Z) (pause : Q) (l : list Z) :
  (elapsed (fade_trace level_at pause l)
   == pause * inject_Z (Z.of_nat (length l)))%Q.
Proof.
  induction l as [|i l IH].
  - simpl. ring.
  - change (elapsed (fade_trace level_at pause (i :: l)))
      with (pause + elapsed (fade_trace level_at pause l))%Q.
    rewrite IH. change (length (i :: l)) with (S (length l)).
    rewrite Nat2Z.inj_succ. unfold Z.succ. rewrite inject_Z_plus. ring.
Qed.

Lemma levels_fade_trace (level_at : Z -> Z) (pause : Q) (l : list Z) :
  levels (fade_trace level_at pause l) = map level_at l.
Proof.
  induction l as [|i l IH]; [reflexivity|].
  change (levels (fade_trace level_at pause (i :: l)))
    with (level_at i :: levels (fade_trace level_at pause l)).
  rewrite IH. reflexivity.
Qed.

Lemma fade_out_run (fade : Q) (pm : VLCPlayerManager) :
  _fade_out Examples.quiet fade pm
  = (Ok tt,
     set_volume (Z.quot (volume pm) 20) pm,
     fade_trace (fun i => Py.int_div (volume pm * i) 20)
                (fade / inject_Z 20) (Py.range_down_from 20)).
Proof.
  unfold _fade_out, bind at 1.
  change (audio_get_volume Examples.quiet pm) with (Ok (volume pm), pm, @nil event).
  cbv beta iota.
  change (Z.of_nat steps) with 20.
  rewrite (fade_loop (fun i => Py.int_div (volume pm * i) 20)).
  simpl rev. cbv beta iota. unfold Py.int_div.
  rewrite Z.mul_1_r. reflexivity.
Qed.

(** C6. What [_fade_out] does: from any starting level it sets 20 levels,
    [int(level * i / 20)] for [i] from 20 down to 1, sleeping a twentieth
    of the window after each, the sleeps adding up to the window (0.5
    seconds by default); the level it ends at is the twentieth part of the
    starting level, which is 5 and not 0 when the starting level is 100. *)
Theorem fade_out_ends_at_a_twentieth (fade : Q) (pm : VLCPlayerManager) :
  fst (fst (_fade_out Examples.quiet fade pm)) = Ok tt /\
  volume (snd (fst (_fade_out Examples.quiet fade pm))) = Z.quot (volume pm) 20 /\
  levels (snd (_fade_out Examples.quiet fade pm))
  = map (fun i => Z.quot (volume pm * i) 20) (Py.range_down_from 20) /\
  (elapsed (snd (_fade_out Examples.quiet fade pm)) == fade)%Q /\
  (default_fade == 1 # 2)%Q /\
  volume (snd (fst (_fade_out Examples.quiet default_fade (new_player 100)))) = 5 /\
  ~ Spec.fades_to_zero Examples.quiet (new_player 100).
Proof.
  rewrite fade_out_run. cbn [fst snd].
  split; [reflexivity|]. split; [reflexivity|].
  split; [rewrite levels_fade_trace; reflexivity|].
  split; [|split; [reflexivity|split; [reflexivity|]]].
  - rewrite elapsed_fade_trace. simpl length.
    change (inject_Z (Z.of_nat 20)) with (inject_Z 20). field.
  - unfold Spec.fades_to_zero. vm_compute. discriminate.
Qed.

(** ** The event sink *)

Section NotifyFacts.

Variable Message : Type.
Variable send_json : EventSink.Client -> Message -> bool.
Variable message : Message.

Let ok (c : EventSink.Client) : bool := send_json c message.
Let bad (c : EventSink.Client) : bool := negb (send_json c message).

Lemma send_loop_spec (clients : list EventSink.Client) :
  forall attempts disconnected,
    EventSink.send_loop Message send_json clients message attempts disconnected
    = (attempts ++ map (fun c => (c, ok c)) clients,
       disconnected ++ filter bad clients).
Proof.
  induction clients as [|c l IH]; intros att dis; simpl.
  - rewrite !app_nil_r. reflexivity.
  - unfold ok, bad. destruct (send_json c message) eqn:E; simpl;
      rewrite IH, <- !app_assoc; reflexivity.
Qed.

Lemma remove_loop_skip (ds : list EventSink.Client) :
  forall l a, ~ In a ds ->
    EventSink.remove_loop ds (a :: l)
    = option_map (cons a) (EventSink.remove_loop ds l).
Proof.
  induction ds as [|d ds IH]; intros l a Hn; simpl; [reflexivity|].
  destruct (Nat.eqb d a) eqn:E.
  - apply Nat.eqb_eq in E. subst. exfalso. apply Hn. left. reflexivity.
  - destruct (Py.list_remove Nat.eqb d l) as [l1|]; simpl; [|reflexivity].
    apply IH. intros H. apply Hn. right. exact H.
Qed.

Lemma remove_loop_prunes (clients : list EventSink.Client) :
  EventSink.remove_loop (filter bad clients) clients = Some (filter ok clients).
Proof.
  induction clients as [|c l IH]; [reflexivity|].
  simpl filter. unfold bad at 1, ok at 1.
  destruct (send_json c message) eqn:E; simpl negb; cbv iota.
  - rewrite remove_loop_skip.
    + rewrite IH. reflexivity.
    + intros H. apply filter_In in H. destruct H as [_ H].
      unfold bad in H. rewrite E in H. discriminate.
  - simpl. rewrite Nat.eqb_refl. exact IH.
Qed.

Lemma delivered_spec (clients : list EventSink.Client) :
  EventSink.delivered (map (fun c => (c, ok c)) clients) = filter ok clients.
Proof.
  unfold EventSink.delivered.
  induction clients as [|c l IH]; [reflexivity|].
  simpl. destruct (ok c); simpl; rewrite IH; reflexivity.
Qed.

(** C8. For every list of subscribed observers and every message,
    [notify_clients] attempts one send to each observer, in the order of
    the list; it does not fail; the observers that receive the message
    are exactly those whose send succeeds, whatever the others do; and the
    subscriber list afterwards holds exactly the observers whose send
    succeeded, those whose send failed having been removed. *)
Theorem notify_delivers_and_prunes (clients : list EventSink.Client) :
  exists attempts remaining,
    EventSink.notify_clients Message send_json clients message
    = (Some remaining, attempts) /\
    map fst attempts = clients /\
    (forall c r, In (c, r) attempts -> r = send_json c message) /\
    EventSink.delivered attempts = filter (fun c => send_json c message) clients /\
    remaining = filter (fun c => send_json c message) clients /\
    (forall c, In c remaining <-> In c clients /\ send_json c message = true) /\
    (forall c, In c clients -> send_json c message = false -> ~ In c remaining).
Proof.
  exists (map (fun c => (c, ok c)) clients), (filter ok clients).
  split; [|split; [|split; [|split; [|split; [|split]]]]].
  - unfold EventSink.notify_clients. rewrite send_loop_spec. simpl.
    rewrite remove_loop_prunes. reflexivity.
  - rewrite map_map. simpl. apply map_id.
  - intros c r H. apply in_map_iff in H. destruct H as (c' & H & _).
    injection H as <- <-. reflexivity.
  - apply delivered_spec.
  - reflexivity.
  - intros c. apply filter_In.
  - intros c _ Hf H. apply filter_In in H. destruct H as [_ H].
    unfold ok in H. congruence.
Qed.

End NotifyFacts.

(** ** Deleting what is on screen *)

Lemma exec_all_app (renderer : Renderer) (l1 l2 : list action) :
  forall y,
    exec_all renderer (l1 ++ l2) y =
    match exec_all renderer l1 y with
    | Some y1 => exec_all renderer l2 y1
    | None => None
    end.
Proof.
  induction l1 as [|a l1 IH]; intros y; simpl; [reflexivity|].
  destruct (exec renderer a y); [apply IH | reflexivity].
Qed.

Lemma deletes_keep_the_wait (renderer : Renderer) (l : list action) :
  forall (y y' : System) (c : Content) (r : Q),
    loop y = Sleeping c r ->
    forallb delete_or_tick l = true ->
    exec_all renderer l y = Some y' ->
    selections y' = selections y /\
    exists r', loop y' = Sleeping c r' /\ (r' == r - ticked l)%Q.
Proof.
  induction l as [|a l IH]; intros y y' c r L F E.
  - simpl in E. injection E as <-. split; [reflexivity|].
    exists r. split; [exact L | simpl; ring].
  - simpl in F. apply andb_true_iff in F. destruct F as [Fa Fl].
    simpl in E. destruct (exec renderer a y) as [y1|] eqn:X; [|discriminate].
    destruct a as [[c0 | cid | ids] | dt | ]; try discriminate.
    + simpl in X. injection X as <-.
      assert (L1 : loop (with_loop y (remove_content (sched y) cid) (loop y))
                   = Sleeping c r) by exact L.
      destruct (IH _ _ c r L1 Fl E) as (Hs & r' & Hl & Hr).
      split; [exact Hs|]. exists r'. split; [exact Hl | exact Hr].
    + cbn [exec] in X. unfold tick in X. rewrite L in X.
      cbn [remaining_of with_remaining] in X.
      destruct (Qle_bool 0 dt && Qle_bool dt r); [|discriminate].
      injection X as <-.
      match type of E with
      | exec_all _ _ ?y1 = _ =>
          assert (L1 : loop y1 = Sleeping c (Qred (r - dt))) by reflexivity
      end.
      destruct (IH _ _ c (Qred (r - dt)) L1 Fl E) as (Hs & r' & Hl & Hr).
      split; [exact Hs|]. exists r'. split; [exact Hl|].
      rewrite Hr, Qred_correct. simpl. ring.
Qed.

Lemma sleeping_not_resumed (renderer : Renderer) (y : System) (c : Content) (r : Q) :
  loop y = Sleeping c r -> (0 < r)%Q -> resume renderer y = None.
Proof.
  intros L Hr. unfold resume. rewrite L. unfold expired.
  destruct (Qle_bool r 0) eqn:E; [|reflexivity].
  apply Qle_bool_iff in E. exfalso. apply (Qlt_not_le _ _ Hr). exact E.
Qed.

(** C2 (as amended). Deleting Content, the one on screen included, does
    not preempt the driver: while the task sleeps out the duration of the
    selected Content, any sequence of deletions and of time passing leaves
    the selections as they were and the task in the same sleep, shortened
    only by the time passed; and the task does not continue (no new
    selection is made) before the whole sleep has elapsed. *)
Theorem delete_does_not_preempt (renderer : Renderer) (l : list action)
  (y y' : System) (c : Content) (r : Q) :
  loop y = Sleeping c r ->
  forallb delete_or_tick l = true ->
  exec_all renderer l y = Some y' ->
  selections y' = selections y /\
  (exists r', loop y' = Sleeping c r' /\ (r' == r - ticked l)%Q) /\
  ((ticked l < r)%Q -> resume renderer y' = None).
Proof.
  intros L F E.
  destruct (deletes_keep_the_wait renderer l y y' c r L F E) as (Hs & r' & Hl & Hr).
  split; [exact Hs|]. split; [exists r'; split; assumption|].
  intros Ht. apply (sleeping_not_resumed renderer y' c r' Hl).
  rewrite Hr. apply Qlt_minus_iff in Ht. exact Ht.
Qed.

(** C2 at a concrete input: [A] (10 seconds) is on screen, it is deleted
    and one second passes. *)
Lemma delete_does_not_preempt_witness :
  exists y',
    exec_all Examples.quiet [Api (RemoveContent "a"); Tick (inject_Z 1)]
             Examples.showing_a = Some y' /\
    selections y' = selections Examples.showing_a /\
    (exists r', loop y' = Sleeping Examples.A r' /\
                (r' == inject_Z 10
                       - ticked [Api (RemoveContent "a"); Tick (inject_Z 1)])%Q) /\
    ((ticked [Api (RemoveContent "a"); Tick (inject_Z 1)] < inject_Z 10)%Q ->
     resume Examples.quiet y' = None).
Proof.
  eexists. split; [vm_compute; reflexivity|].
  apply (delete_does_not_preempt Examples.quiet
           [Api (RemoveContent "a"); Tick (inject_Z 1)]
           Examples.showing_a _ Examples.A (inject_Z 10));
    reflexivity.
Defined.

(** C2, as stated, fails: with [A] (10 seconds) just put on screen,
    deleting [A] does not make the driver select again within a second. *)
Lemma delete_waits_out_duration :
  ~ Spec.preempts_within Examples.quiet 1 Examples.showing_a "a".
Proof.
  intros (dt & y' & H0 & H1 & E).
  change [Api (RemoveContent "a"); Tick dt; Resume]
    with ([Api (RemoveContent "a"); Tick dt] ++ [Resume]) in E.
  rewrite exec_all_app in E.
  destruct (exec_all Examples.quiet [Api (RemoveContent "a"); Tick dt]
              Examples.showing_a) as [y1|] eqn:X; [|discriminate].
  destruct (deletes_keep_the_wait Examples.quiet
              [Api (RemoveContent "a"); Tick dt] Examples.showing_a y1
              Examples.A (inject_Z 10) eq_refl eq_refl X) as (_ & r' & Hl & Hr).
  simpl in E.
  rewrite (sleeping_not_resumed Examples.quiet y1 Examples.A r' Hl) in E;
    [discriminate|].
  rewrite Hr. simpl ticked. change (inject_Z 10) with (10 # 1). lra.
Qed.

(** * Further properties of the program *)

(** ** The content map under [add_content] *)

Lemma get_set_same {V : Type} (d : Dict.t V) (k : string) (v : V) :
  Dict.get (Dict.set d k v) k = Some v.
Proof.
  induction d as [|[k' v'] d IH]; simpl.
  - rewrite String.eqb_refl. reflexivity.
  - destruct (String.eqb k k') eqn:E; simpl; rewrite E; [reflexivity | exact IH].
Qed.

Lemma get_set_other {V : Type} (d : Dict.t V) (k k' : string) (v : V) :
  k' <> k -> Dict.get (Dict.set d k v) k' = Dict.get d k'.
Proof.
  intros Hne. induction d as [|[k0 v0] d IH]; simpl.
  - destruct (String.eqb k' k) eqn:E; [apply String.eqb_eq in E; contradiction|].
    reflexivity.
  - destruct (String.eqb k k0) eqn:E; simpl.
    + apply String.eqb_eq in E. subst k0.
      destruct (String.eqb k' k) eqn:E'; [apply String.eqb_eq in E'; contradiction|].
      reflexivity.
    + rewrite IH. reflexivity.
Qed.

Lemma set_absent {V : Type} (d : Dict.t V) (k : string) (v : V) :
  Dict.contains d k = false -> Dict.set d k v = d ++ [(k, v)].
Proof.
  unfold Dict.contains.
  induction d as [|[k' v'] d IH]; simpl; [reflexivity|].
  destruct (String.eqb k k') eqn:E; [discriminate|].
  intros H. rewrite (IH H). reflexivity.
Qed.

Lemma keys_set_present {V : Type} (d : Dict.t V) (k : string) (v : V) :
  Dict.contains d k = true -> Dict.keys (Dict.set d k v) = Dict.keys d.
Proof.
  unfold Dict.contains, Dict.keys.
  induction d as [|[k' v'] d IH]; simpl; [discriminate|].
  destruct (String.eqb k k') eqn:E; simpl; [reflexivity|].
  intros H. rewrite (IH H). reflexivity.
Qed.

Lemma contains_keys {V : Type} (d : Dict.t V) (k : string) :
  Dict.contains d k = true <-> In k (Dict.keys d).
Proof.
  unfold Dict.contains, Dict.keys.
  induction d as [|[k' v'] d IH]; simpl.
  - split; [discriminate | intros []].
  - destruct (String.eqb k k') eqn:E.
    + apply String.eqb_eq in E. subst. split; [left; reflexivity | reflexivity].
    + apply String.eqb_neq in E. rewrite IH. split.
      * intros H. right. exact H.
      * intros [H | H]; [congruence | exact H].
Qed.

(** X1. [add_content] stores the Content under its own id and touches
    nothing else: a lookup of that id gives the Content, every other id
    resolves as before, and the playlist, the cursor and the schedules are
    unchanged.  A new id goes to the end of the map (so the default
    rotation is in upload order); an id already present is replaced where
    it stands, the keys and their order staying the same. *)
Theorem add_content_stores (s : ContentScheduler) (c : Content) :
  Dict.get (content_db (add_content s c)) (id c) = Some c /\
  (forall k, k <> id c ->
     Dict.get (content_db (add_content s c)) k = Dict.get (content_db s) k) /\
  current_playlist (add_content s c) = current_playlist s /\
  current_index (add_content s c) = current_index s /\
  schedules (add_content s c) = schedules s /\
  (Dict.contains (content_db s) (id c) = false ->
     Dict.values (content_db (add_content s c)) = Dict.values (content_db s) ++ [c]) /\
  (Dict.contains (content_db s) (id c) = true ->
     Dict.keys (content_db (add_content s c)) = Dict.keys (content_db s)).
Proof.
  unfold add_content. simpl.
  split; [apply get_set_same|].
  split; [intros k Hk; apply get_set_other; exact Hk|].
  split; [reflexivity|]. split; [reflexivity|]. split; [reflexivity|].
  split.
  - intros H. rewrite (set_absent _ _ _ H). unfold Dict.values.
    rewrite map_app. reflexivity.
  - apply keys_set_present.
Qed.

(** ** The key discipline is kept *)

Lemma well_keyed_set (db : Dict.t Content) (c : Content) :
  well_keyed db -> well_keyed (Dict.set db (id c) c).
Proof.
  intros [Hn Hf]. destruct (Dict.contains db (id c)) eqn:E.
  - split.
    + rewrite (keys_set_present _ _ _ E). exact Hn.
    + clear Hn E. induction db as [|[k v] db IH]; simpl.
      * constructor; [reflexivity | constructor].
      * inversion Hf as [|x l Hx Hl]; subst.
        destruct (String.eqb (id c) k) eqn:K.
        -- apply String.eqb_eq in K. constructor; [simpl; exact K | exact Hl].
        -- constructor; [exact Hx | apply IH; exact Hl].
  - rewrite (set_absent _ _ _ E). split.
    + unfold Dict.keys. rewrite map_app. simpl.
      apply NoDup_app.
      * exact Hn.
      * constructor; [intros [] | constructor].
      * intros k Hk [<- | []].
        apply contains_keys in Hk. congruence.
    + apply Forall_app. split; [exact Hf|].
      constructor; [reflexivity | constructor].
Qed.

Lemma well_keyed_del (db : Dict.t Content) (k : string) :
  well_keyed db -> well_keyed (Dict.del db k).
Proof.
  intros [Hn Hf]. unfold Dict.del. split.
  - clear Hf. unfold Dict.keys in *.
    induction db as [|[k' v] db IH]; simpl; [constructor|].
    inversion Hn as [|x l Hx Hl]; subst.
    destruct (negb (String.eqb k k')); simpl.
    + constructor; [|apply IH; exact Hl].
      intros H. apply Hx. apply in_map_iff in H.
      destruct H as (kv & Hkv & Hin). apply filter_In in Hin.
      apply in_map_iff. exists kv. split; [exact Hkv | apply Hin].
    + apply IH. exact Hl.
  - apply Forall_forall. intros kv H. apply filter_In in H.
    rewrite Forall_forall in Hf. apply Hf. apply H.
Qed.

Lemma well_keyed_api (a : api_call) (s s' : ContentScheduler) :
  well_keyed (content_db s) -> apply_api a s = Some s' ->
  well_keyed (content_db s').
Proof.
  intros H. destruct a as [c | cid | ids]; simpl; intros E.
  - injection E as <-. simpl. apply well_keyed_set. exact H.
  - injection E as <-. rewrite remove_content_db. apply well_keyed_del. exact H.
  - unfold update_playlist in E.
    destruct (resolve_ids (content_db s) ids); [|discriminate].
    injection E as <-. exact H.
Qed.

Lemma load_default_db (s : ContentScheduler) :
  content_db (load_default s) = content_db s.
Proof.
  unfold load_default. destruct (is_empty (current_playlist s)); reflexivity.
Qed.

Lemma advance_db (s s' : ContentScheduler) :
  play_next_advance s = Some s' -> content_db s' = content_db s.
Proof.
  unfold play_next_advance.
  destruct (Py.mod_ _ _); [|discriminate].
  intros H. injection H as <-. reflexivity.
Qed.

Lemma exec_db (renderer : Renderer) (a : action) (y y' : System) :
  exec renderer a y = Some y' ->
  (exists c, a = Api c /\ apply_api c (sched y) = Some (sched y')) \/
  content_db (sched y') = content_db (sched y).
Proof.
  destruct a as [c | dt | ]; simpl.
  - destruct (apply_api c (sched y)) as [s|] eqn:A; [|discriminate].
    intros E. injection E as <-. left. exists c. split; [reflexivity | exact A].
  - unfold tick. destruct (remaining_of (loop y)) as [r|]; [|discriminate].
    destruct (Qle_bool 0 dt && Qle_bool dt r); [|discriminate].
    intros E. injection E as <-. right. reflexivity.
  - intros E. right. unfold resume in E.
    destruct (loop y) as [ | c r | c r | r | e].
    + pose proof (select_fst (sched y)) as F.
      destruct (play_next_select (sched y)) as [s1 [ | c | ]]; simpl in F; subst s1.
      * injection E as <-. apply load_default_db.
      * destruct (play_content renderer c (player y)) as [[[u|e] pm1] tr];
          injection E as <-; apply load_default_db.
      * injection E as <-. apply load_default_db.
    + destruct (expired r); [|discriminate].
      destruct (play_next_advance (sched y)) as [s2|] eqn:A;
        injection E as <-; simpl; [eapply advance_db; exact A | reflexivity].
    + destruct (expired r); [|discriminate]. injection E as <-. reflexivity.
    + destruct (expired r); [|discriminate]. injection E as <-. reflexivity.
    + discriminate.
Qed.

Lemma well_keyed_get (db : Dict.t Content) (k : string) (c : Content) :
  well_keyed db -> Dict.get db k = Some c -> id c = k.
Proof.
  intros [_ Hf]. induction db as [|[k' v] db IH]; simpl; [discriminate|].
  inversion Hf as [|x l Hx Hl]; subst.
  destruct (String.eqb k k') eqn:E.
  - apply String.eqb_eq in E. intros H. injection H as <-. simpl in Hx. congruence.
  - apply IH. exact Hl.
Qed.

Lemma well_keyed_values (db : Dict.t Content) :
  well_keyed db -> map id (Dict.values db) = Dict.keys db.
Proof.
  intros [_ Hf]. unfold Dict.values, Dict.keys.
  induction db as [|[k v] db IH]; simpl; [reflexivity|].
  inversion Hf as [|x l Hx Hl]; subst. simpl in Hx.
  rewrite Hx, (IH Hl). reflexivity.
Qed.

(** X2. In every state the system reaches from start-up, whatever the
    handlers and the loop have done, the content map holds each key once
    and every Content under its own id: a lookup of [k] can only give a
    Content whose id is [k], and the default rotation (all Content of the
    map) holds no id twice. *)
Theorem catalog_well_keyed (renderer : Renderer) (level : Z) (y : System) :
  reachable renderer level y ->
  well_keyed (content_db (sched y)) /\
  (forall k c, Dict.get (content_db (sched y)) k = Some c -> id c = k) /\
  NoDup (map id (Dict.values (content_db (sched y)))).
Proof.
  intros R.
  assert (W : well_keyed (content_db (sched y))).
  { induction R as [| y a y' _ IH E].
    - split; constructor.
    - destruct (exec_db renderer a y y' E) as [(c & _ & A) | D].
      + eapply well_keyed_api; eauto.
      + rewrite D. exact IH. }
  split; [exact W|]. split.
  - intros k c. apply well_keyed_get. exact W.
  - rewrite (well_keyed_values _ W). apply W.
Qed.

(** X2 at the system showing [A]. *)
Lemma catalog_well_keyed_witness :
  well_keyed (content_db (sched Examples.showing_a)) /\
  (forall k c, Dict.get (content_db (sched Examples.showing_a)) k = Some c ->
               id c = k) /\
  NoDup (map id (Dict.values (content_db (sched Examples.showing_a)))).
Proof.
  apply (catalog_well_keyed Examples.quiet 50 Examples.showing_a).
  apply (exec_all_reachable Examples.quiet 50 Examples.script (boot 50)).
  - apply reach_boot.
  - vm_compute. reflexivity.
Defined.

(** ** What [update_playlist] makes of the ids *)

Lemma resolve_ids_ids (db : Dict.t Content) (ids : list string) (l : list Content) :
  (forall k c, Dict.get db k = Some c -> id c = k) ->
  resolve_ids db ids = Some l ->
  map id l = filter (Dict.contains db) ids.
Proof.
  intros Hk. revert l. induction ids as [|cid rest IH]; simpl; intros l H.
  - injection H as <-. reflexivity.
  - destruct (Dict.contains db cid) eqn:E.
    + destruct (Dict.get db cid) as [c|] eqn:G; [|discriminate].
      destruct (resolve_ids db rest) as [l'|]; [|discriminate].
      injection H as <-. simpl. rewrite (Hk _ _ G), (IH l' eq_refl). reflexivity.
    + apply IH. exact H.
Qed.

(** X3. On a content map that holds every Content under its own id,
    [update_playlist] makes the playlist follow the request: the ids of
    the new playlist are the requested ids, in the requested order and
    with their repetitions, less the ids the map does not hold; so a
    request of known ids only is taken over as it is, and the cursor is
    0 and the content map unchanged. *)
Theorem update_playlist_follows_request (s s' : ContentScheduler)
  (ids : list string) :
  (forall k c, Dict.get (content_db s) k = Some c -> id c = k) ->
  update_playlist s ids = Some s' ->
  map id (current_playlist s') = filter (Dict.contains (content_db s)) ids /\
  ((forall cid, In cid ids -> Dict.contains (content_db s) cid = true) ->
     map id (current_playlist s') = ids) /\
  (length (current_playlist s') <= length ids)%nat /\
  current_index s' = 0 /\
  content_db s' = content_db s.
Proof.
  intros Hk H. unfold update_playlist in H.
  destruct (resolve_ids (content_db s) ids) as [l|] eqn:R; [|discriminate].
  injection H as <-. simpl.
  pose proof (resolve_ids_ids _ _ _ Hk R) as Hm.
  split; [exact Hm|]. split; [|split; [|split; reflexivity]].
  - intros Hall. rewrite Hm. apply forallb_filter_id.
    apply forallb_forall. exact Hall.
  - rewrite <- (length_map id l), Hm. apply filter_length_le.
Qed.

(** X3 at a concrete request: [b, zz, a, b] on the catalog [{a, b}]. *)
Lemma update_playlist_follows_request_witness :
  map id [Examples.B; Examples.A; Examples.B]
  = filter (Dict.contains (content_db Examples.with_schedule))
           ["b"; "zz"; "a"; "b"]%string /\
  ((forall cid, In cid ["b"; "zz"; "a"; "b"]%string ->
      Dict.contains (content_db Examples.with_schedule) cid = true) ->
     map id [Examples.B; Examples.A; Examples.B] = ["b"; "zz"; "a"; "b"]%string) /\
  (length [Examples.B; Examples.A; Examples.B]
   <= length ["b"; "zz"; "a"; "b"]%string)%nat /\
  0 = 0 /\
  content_db Examples.with_schedule = content_db Examples.with_schedule.
Proof.
  apply (update_playlist_follows_request Examples.with_schedule
           (with_index (with_playlist Examples.with_schedule
                          [Examples.B; Examples.A; Examples.B]) 0)
           ["b"; "zz"; "a"; "b"]%string).
  - intros k c. simpl.
    destruct (String.eqb k "a") eqn:Ea.
    + apply String.eqb_eq in Ea. intros H. injection H as <-. subst. reflexivity.
    + destruct (String.eqb k "b") eqn:Eb; [|discriminate].
      apply String.eqb_eq in Eb. intros H. injection H as <-. subst. reflexivity.
  - reflexivity.
Defined.

(** ** The rotation *)

Lemma play_next_keeps (renderer : Renderer) (s : ContentScheduler)
  (pm : VLCPlayerManager) :
  current_playlist s <> [] ->
  0 <= current_index s < Z.of_nat (length (current_playlist s)) ->
  exists pm' tr s2,
    play_next renderer s pm = (Spawned, s2, pm', tr) /\
    current_playlist s2 = current_playlist s /\
    content_db s2 = content_db s /\
    schedules s2 = schedules s /\
    current_index s2 =
      (current_index s + 1) mod Z.of_nat (length (current_playlist s)).
Proof.
  intros Hne Hb. unfold play_next.
  rewrite (select_nonempty_playlist s Hne).
  destruct (list_index_in_range _ _ Hb) as (c & Hc & _). rewrite Hc.
  destruct (play_content_returns renderer c pm) as (pm' & tr & P). rewrite P.
  destruct (advance_nonempty s Hne) as [s2 A]. rewrite A.
  destruct (advance_spec _ _ A) as [Hp Hi].
  exists pm', (tr ++ [EvSleep (inject_Z (duration c)); EvSpawnPlayNext]), s2.
  split; [reflexivity|]. split; [exact Hp|].
  split; [eapply advance_db; exact A|]. split; [|exact Hi].
  unfold play_next_advance in A. destruct (Py.mod_ _ _); [|discriminate].
  injection A as <-. reflexivity.
Qed.

(** X4. The rotation is a round robin.  On a non-empty playlist with the
    cursor inside it, [k] successive runs of [play_next], with nothing
    else in between and whatever the renderer does, all end normally,
    leave the playlist and the content map as they were, and leave the
    cursor [k] places further, modulo the length; the entry selected next
    is the one at that place, and after as many runs as the playlist has
    entries the cursor is back where it started. *)
Theorem rotation_is_round_robin (renderer : Renderer) (k : nat)
  (s : ContentScheduler) (pm : VLCPlayerManager) :
  current_playlist s <> [] ->
  0 <= current_index s < Z.of_nat (length (current_playlist s)) ->
  exists s' pm' tr c,
    run_loop renderer k s pm = (Spawned, s', pm', tr) /\
    current_playlist s' = current_playlist s /\
    content_db s' = content_db s /\
    current_index s' =
      (current_index s + Z.of_nat k) mod Z.of_nat (length (current_playlist s)) /\
    snd (play_next_select s') = Selected c /\
    nth_error (current_playlist s) (Z.to_nat (current_index s')) = Some c /\
    (k = length (current_playlist s) -> current_index s' = current_index s).
Proof.
  revert s pm. induction k as [|k IH]; intros s pm Hne Hb.
  - destruct (list_index_in_range _ _ Hb) as (c & Hc & Hn).
    exists s, pm, [], c. simpl run_loop.
    split; [reflexivity|]. split; [reflexivity|]. split; [reflexivity|].
    split; [|split; [|split]].
    + rewrite Z.add_0_r, Z.mod_small by exact Hb. reflexivity.
    + rewrite (select_nonempty_playlist s Hne), Hc. reflexivity.
    + exact Hn.
    + intros H. destruct (current_playlist s); [congruence | discriminate].
  - destruct (play_next_keeps renderer s pm Hne Hb)
      as (pm1 & tr1 & s1 & P & Hp & Hd & _ & Hi).
    assert (Hne1 : current_playlist s1 <> []) by (rewrite Hp; exact Hne).
    assert (Hb1 : 0 <= current_index s1 < Z.of_nat (length (current_playlist s1))).
    { rewrite Hp, Hi. apply Z.mod_pos_bound. lia. }
    destruct (IH s1 pm1 Hne1 Hb1)
      as (s' & pm' & tr & c & R & Hp' & Hd' & Hi' & Hs & Hn & _).
    exists s', pm', (tr1 ++ tr), c.
    assert (Hidx : current_index s' =
                   (current_index s + Z.of_nat (S k))
                     mod Z.of_nat (length (current_playlist s))).
    { rewrite Hi', Hp, Hi, Z.add_mod_idemp_l by lia. f_equal. lia. }
    split; [simpl run_loop; rewrite P, R; reflexivity|].
    split; [congruence|]. split; [congruence|]. split; [exact Hidx|].
    split; [exact Hs|]. split; [rewrite <- Hp; exact Hn|].
    intros Hk. rewrite Hidx, Hk.
    rewrite <- (Z.mul_1_l (Z.of_nat (length (current_playlist s)))) at 1.
    rewrite Z.mod_add by lia. apply Z.mod_small. exact Hb.
Qed.

(** X4 at a concrete rotation: two entries, two runs. *)
Lemma rotation_is_round_robin_witness :
  exists s' pm' tr c,
    run_loop Examples.quiet 2
      (with_playlist init [Examples.A; Examples.B]) (new_player 50)
    = (Spawned, s', pm', tr) /\
    current_playlist s' = [Examples.A; Examples.B] /\
    content_db s' = [] /\
    current_index s' = (0 + Z.of_nat 2) mod Z.of_nat 2 /\
    snd (play_next_select s') = Selected c /\
    nth_error [Examples.A; Examples.B] (Z.to_nat (current_index s')) = Some c /\
    (2%nat = length [Examples.A; Examples.B] -> current_index s' = 0).
Proof.
  apply (rotation_is_round_robin Examples.quiet 2
           (with_playlist init [Examples.A; Examples.B]) (new_player 50)).
  - simpl. discriminate.
  - simpl. lia.
Defined.

(** ** A playlist, once there, stays *)

Lemma exec_keeps_playlist (renderer : Renderer) (a : action) (y y' : System) :
  current_playlist (sched y) <> [] ->
  no_playlist_update a = true ->
  exec renderer a y = Some y' ->
  current_playlist (sched y') = current_playlist (sched y) /\
  forall t c, In (t, c) (selections y') ->
    In (t, c) (selections y) \/ In c (current_playlist (sched y)).
Proof.
  intros Hne Ha E.
  destruct a as [[c | cid | ids] | dt | ]; try discriminate; simpl in E.
  - injection E as <-. split; [reflexivity | intros t c0 H; left; exact H].
  - injection E as <-. simpl.
    destruct (remove_content_frame (sched y) cid) as [Hp _].
    split; [exact Hp | intros t c0 H; left; exact H].
  - unfold tick in E. destruct (remaining_of (loop y)) as [r|]; [|discriminate].
    destruct (Qle_bool 0 dt && Qle_bool dt r); [|discriminate].
    injection E as <-. split; [reflexivity | intros t c0 H; left; exact H].
  - unfold resume in E. destruct (loop y) as [ | c r | c r | r | e].
    + rewrite (select_nonempty_playlist _ Hne) in E.
      destruct (Py.list_index (current_playlist (sched y)) (current_index (sched y)))
        as [c|] eqn:I.
      * apply list_index_In in I.
        destruct (play_content renderer c (player y)) as [[[u|e] pm1] tr];
          injection E as <-; (split; [reflexivity|]); simpl;
          intros t c0 [H | H];
          try (left; exact H); injection H as <- <-; right; exact I.
      * injection E as <-. split; [reflexivity | intros t c0 H; left; exact H].
    + destruct (expired r); [|discriminate].
      destruct (play_next_advance (sched y)) as [s2|] eqn:A; injection E as <-; simpl.
      * apply advance_spec in A. destruct A as [Hp _].
        split; [exact Hp | intros t c0 H; left; exact H].
      * split; [reflexivity | intros t c0 H; left; exact H].
    + destruct (expired r); [|discriminate]. injection E as <-.
      split; [reflexivity | intros t c0 H; left; exact H].
    + destruct (expired r); [|discriminate]. injection E as <-.
      split; [reflexivity | intros t c0 H; left; exact H].
    + discriminate.
Qed.

(** X5. A playlist in use is a snapshot.  Once the playlist is not empty,
    nothing but [update_playlist] changes it: through any sequence of
    uploads ([add_content]), deletions, time passing and steps of the
    loop the playlist stays the same list, and everything selected
    meanwhile is an entry of it.  Content added in the meantime is
    therefore not played. *)
Theorem playlist_is_a_snapshot (renderer : Renderer) (l : list action)
  (y y' : System) :
  current_playlist (sched y) <> [] ->
  forallb no_playlist_update l = true ->
  exec_all renderer l y = Some y' ->
  current_playlist (sched y') = current_playlist (sched y) /\
  forall t c, In (t, c) (selections y') ->
    In (t, c) (selections y) \/ In c (current_playlist (sched y)).
Proof.
  revert y. induction l as [|a l IH]; intros y Hne F E.
  - simpl in E. injection E as <-.
    split; [reflexivity | intros t c H; left; exact H].
  - simpl in F. apply andb_true_iff in F. destruct F as [Fa Fl].
    simpl in E. destruct (exec renderer a y) as [y1|] eqn:X; [|discriminate].
    destruct (exec_keeps_playlist renderer a y y1 Hne Fa X) as [Hp Hs].
    assert (Hne1 : current_playlist (sched y1) <> []) by (rewrite Hp; exact Hne).
    destruct (IH y1 Hne1 Fl E) as [Hp' Hs'].
    split; [congruence|].
    intros t c H. destruct (Hs' t c H) as [H1 | H1].
    + apply Hs. exact H1.
    + right. rewrite <- Hp. exact H1.
Qed.

(** X5 at a concrete run: while [A] is on screen [B] is uploaded, [A]'s
    ten seconds pass and the loop selects again. *)
Lemma playlist_is_a_snapshot_witness :
  exists y',
    exec_all Examples.quiet
      [Api (AddContent Examples.B); Tick (inject_Z 10); Resume; Resume]
      Examples.showing_a = Some y' /\
    current_playlist (sched y') = current_playlist (sched Examples.showing_a) /\
    forall t c, In (t, c) (selections y') ->
      In (t, c) (selections Examples.showing_a) \/
      In c (current_playlist (sched Examples.showing_a)).
Proof.
  eexists. split; [vm_compute; reflexivity|].
  apply (playlist_is_a_snapshot Examples.quiet
           [Api (AddContent Examples.B); Tick (inject_Z 10); Resume; Resume]
           Examples.showing_a).
  - simpl. discriminate.
  - reflexivity.
  - vm_compute. reflexivity.
Defined.

(** ** The end of the loop *)

Lemma crashed_stays (renderer : Renderer) (l : list action) :
  forall (y y' : System) (e : string),
    loop y = Crashed e -> exec_all renderer l y = Some y' ->
    loop y' = Crashed e /\ selections y' = selections y /\ player y' = player y.
Proof.
  induction l as [|a l IH]; intros y y' e L E.
  - simpl in E. injection E as <-. repeat split. exact L.
  - simpl in E. destruct (exec renderer a y) as [y1|] eqn:X; [|discriminate].
    destruct a as [c | dt | ]; simpl in X.
    + destruct (apply_api c (sched y)) as [s|]; [|discriminate].
      injection X as <-.
      assert (L1 : loop (with_loop y s (loop y)) = Crashed e) by exact L.
      destruct (IH _ _ e L1 E) as (H1 & H2 & H3).
      repeat split; assumption.
    + unfold tick in X. rewrite L in X. discriminate.
    + unfold resume in X. rewrite L in X. discriminate.
Qed.

(** X6. A playlist update that resolves to nothing, arriving while
    [play_content] is awaited, ends playback for good: when the run in
    flight continues, the modulo by the length of the now empty playlist
    raises [ZeroDivisionError], no successor is scheduled, and from then
    on no handler call and no passing of time makes the loop select or
    play anything again. *)
Theorem empty_update_during_play_kills_loop (renderer : Renderer) (y : System)
  (c : Content) (r : Q) (ids : list string) :
  loop y = InPlay c r ->
  expired r = true ->
  (forall cid, In cid ids -> Dict.contains (content_db (sched y)) cid = false) ->
  exists y1,
    exec_all renderer [Api (UpdatePlaylist ids); Resume] y = Some y1 /\
    loop y1 = Crashed "ZeroDivisionError" /\
    selections y1 = selections y /\
    forall l y2, exec_all renderer l y1 = Some y2 ->
      loop y2 = Crashed "ZeroDivisionError" /\
      selections y2 = selections y /\
      player y2 = player y.
Proof.
  intros L X D.
  assert (U : update_playlist (sched y) ids
              = Some (with_index (with_playlist (sched y) []) 0)).
  { unfold update_playlist. rewrite (resolve_ids_all_dangling _ _ D). reflexivity. }
  eexists. split.
  - simpl. rewrite U. unfold resume. simpl. rewrite L, X. reflexivity.
  - split; [reflexivity|]. split; [reflexivity|].
    intros l y2 E.
    match type of E with
    | exec_all _ _ ?y1 = _ =>
        exact (crashed_stays renderer l y1 y2 "ZeroDivisionError" eq_refl E)
    end.
Qed.

(** X6 at a concrete run: [A] is being loaded when the playlist is set to
    the unknown id [zz]. *)
Lemma empty_update_during_play_kills_loop_witness :
  exists y1,
    exec_all Examples.quiet [Api (UpdatePlaylist ["zz"%string]); Resume]
      (with_loop Examples.showing_a Examples.only_a (InPlay Examples.A 0))
    = Some y1 /\
    loop y1 = Crashed "ZeroDivisionError" /\
    selections y1 = selections Examples.showing_a /\
    forall l y2, exec_all Examples.quiet l y1 = Some y2 ->
      loop y2 = Crashed "ZeroDivisionError" /\
      selections y2 = selections Examples.showing_a /\
      player y2 = player Examples.showing_a.
Proof.
  apply (empty_update_during_play_kills_loop Examples.quiet
           (with_loop Examples.showing_a Examples.only_a (InPlay Examples.A 0))
           Examples.A 0 ["zz"%string]).
  - reflexivity.
  - reflexivity.
  - intros cid [<- | []]. reflexivity.
Defined.

(** ** Running player code *)

Lemma bind_ok {A B : Type} (m : M A) (k : A -> M B) (pm pm1 : VLCPlayerManager)
  (a : A) (tr1 : list event) :
  m pm = (Ok a, pm1, tr1) ->
  bind m k pm = (let '(r, pm2, tr2) := k a pm1 in (r, pm2, tr1 ++ tr2)).
Proof. intros H. unfold bind. rewrite H. reflexivity. Qed.

Lemma bind_raise {A B : Type} (m : M A) (k : A -> M B) (pm pm1 : VLCPlayerManager)
  (e : string) (tr1 : list event) :
  m pm = (Raise e, pm1, tr1) -> bind m k pm = (Raise e, pm1, tr1).
Proof. intros H. unfold bind. rewrite H. reflexivity. Qed.

Lemma bind_ok_inv {A B : Type} (m : M A) (k : A -> M B) (pm pm' : VLCPlayerManager)
  (b : B) (tr : list event) :
  bind m k pm = (Ok b, pm', tr) ->
  exists a pm1 tr1 tr2,
    m pm = (Ok a, pm1, tr1) /\ k a pm1 = (Ok b, pm', tr2) /\ tr = tr1 ++ tr2.
Proof.
  unfold bind. destruct (m pm) as [[[a|e] pm1] tr1]; [|discriminate].
  destruct (k a pm1) as [[r pm2] tr2] eqn:K. intros H. injection H as -> -> <-.
  exists a, pm1, tr1, tr2. repeat split. exact K.
Qed.

Lemma call_ok (renderer : Renderer) (p : prim) (pm : VLCPlayerManager) :
  raises renderer p = None -> call renderer p pm = (Ok tt, pm, []).
Proof. intros H. unfold call. rewrite H. reflexivity. Qed.

Lemma call_raise (renderer : Renderer) (p : prim) (pm : VLCPlayerManager) (e : string) :
  raises renderer p = Some e -> call renderer p pm = (Raise e, pm, []).
Proof. intros H. unfold call. rewrite H. reflexivity. Qed.

Lemma is_playing_run (renderer : Renderer) (pm : VLCPlayerManager) :
  raises renderer PIsPlaying = None ->
  is_playing renderer pm = (Ok (playing pm), pm, []).
Proof.
  intros H. unfold is_playing. rewrite (bind_ok _ _ _ _ _ _ (call_ok _ _ _ H)).
  reflexivity.
Qed.

Lemma set_and_sleep (renderer : Renderer) (v : Z) (pause : Q) (pm : VLCPlayerManager) :
  raises renderer (PSetVolume v) = None ->
  (audio_set_volume renderer v ;;; sleep pause) pm
  = (Ok tt, set_volume v pm, [EvSetVolume v; EvSleep pause]).
Proof.
  intros H. unfold audio_set_volume.
  unfold bind at 1. unfold bind at 1.
  rewrite (call_ok _ _ _ H). reflexivity.
Qed.

Lemma fade_loop_run (renderer : Renderer) (level_at : Z -> Z) (pause : Q)
  (l : list Z) :
  (forall v, raises renderer (PSetVolume v) = None) ->
  forall pm,
    for_each l (fun i =>
      audio_set_volume renderer (level_at i) ;;; sleep pause) pm
    = (Ok tt,
       match rev l with
       | [] => pm
       | i :: _ => set_volume (level_at i) pm
       end,
       fade_trace level_at pause l).
Proof.
  intros H. induction l as [|i l IH]; intros pm; [reflexivity|].
  change (for_each (i :: l) ?body) with (body i ;;; for_each l body).
  rewrite (bind_ok _ _ _ _ _ _ (set_and_sleep renderer (level_at i) pause pm (H _))).
  rewrite IH. simpl rev.
  destruct (rev l) as [|j l']; reflexivity.
Qed.

Lemma fade_out_run_on (renderer : Renderer) (fade : Q) (pm : VLCPlayerManager) :
  raises renderer PGetVolume = None ->
  (forall v, raises renderer (PSetVolume v) = None) ->
  _fade_out renderer fade pm
  = (Ok tt,
     set_volume (Z.quot (volume pm) 20) pm,
     fade_trace (fun i => Py.int_div (volume pm * i) 20)
                (fade / inject_Z 20) (Py.range_down_from 20)).
Proof.
  intros Hg Hs. unfold _fade_out.
  assert (G : audio_get_volume renderer pm = (Ok (volume pm), pm, [])).
  { unfold audio_get_volume.
    rewrite (bind_ok _ _ _ _ _ _ (call_ok _ _ _ Hg)). reflexivity. }
  rewrite (bind_ok _ _ _ _ _ _ G).
  change (Z.of_nat steps) with 20.
  rewrite (fade_loop_run renderer (fun i => Py.int_div (volume pm * i) 20) _ _ Hs).
  simpl rev. cbv beta iota. unfold Py.int_div. rewrite Z.mul_1_r. reflexivity.
Qed.

Lemma fade_in_run_on (renderer : Renderer) (fade : Q) (pm : VLCPlayerManager) :
  (forall v, raises renderer (PSetVolume v) = None) ->
  _fade_in renderer fade pm
  = (Ok tt,
     set_volume 100 pm,
     fade_trace (fun i => Py.int_div (100 * i) 20)
                (fade / inject_Z 20) (Py.range_up_to 20)).
Proof.
  intros Hs. unfold _fade_in.
  change (Z.of_nat steps) with 20.
  rewrite (fade_loop_run renderer (fun i => Py.int_div (100 * i) 20) _ _ Hs).
  reflexivity.
Qed.

(** X7. [_fade_in] on a renderer that accepts the level changes ends at
    level 100 exactly, whatever the level was before: it sets the 20
    levels 5, 10, ..., 100, sleeping a twentieth of the window after each,
    the sleeps adding up to the window; nothing else of the manager
    changes. *)
Theorem fade_in_reaches_full_level (renderer : Renderer) (fade : Q)
  (pm : VLCPlayerManager) :
  (forall v, raises renderer (PSetVolume v) = None) ->
  fst (fst (_fade_in renderer fade pm)) = Ok tt /\
  snd (fst (_fade_in renderer fade pm)) = set_volume 100 pm /\
  volume (snd (fst (_fade_in renderer fade pm))) = 100 /\
  levels (snd (_fade_in renderer fade pm))
  = [5; 10; 15; 20; 25; 30; 35; 40; 45; 50;
     55; 60; 65; 70; 75; 80; 85; 90; 95; 100] /\
  (elapsed (snd (_fade_in renderer fade pm)) == fade)%Q.
Proof.
  intros Hs. rewrite (fade_in_run_on renderer fade pm Hs). cbn [fst snd].
  split; [reflexivity|]. split; [reflexivity|]. split; [reflexivity|].
  split.
  - rewrite levels_fade_trace. reflexivity.
  - rewrite elapsed_fade_trace.
    change (inject_Z (Z.of_nat (length (Py.range_up_to 20)))) with (inject_Z 20).
    field.
Qed.

(** X7 on the renderer on which nothing raises, from level 37. *)
Lemma fade_in_reaches_full_level_witness :
  fst (fst (_fade_in Examples.quiet default_fade (new_player 37))) = Ok tt /\
  snd (fst (_fade_in Examples.quiet default_fade (new_player 37)))
  = set_volume 100 (new_player 37) /\
  volume (snd (fst (_fade_in Examples.quiet default_fade (new_player 37)))) = 100 /\
  levels (snd (_fade_in Examples.quiet default_fade (new_player 37)))
  = [5; 10; 15; 20; 25; 30; 35; 40; 45; 50;
     55; 60; 65; 70; 75; 80; 85; 90; 95; 100] /\
  (elapsed (snd (_fade_in Examples.quiet default_fade (new_player 37)))
   == default_fade)%Q.
Proof.
  apply (fade_in_reaches_full_level Examples.quiet default_fade (new_player 37)).
  intros v. reflexivity.
Defined.

(** ** What player code leaves alone *)

Lemma keeps_ret {A B : Type} (part : VLCPlayerManager -> B) (a : A) :
  keeps part (ret a).
Proof. intros pm r pm' tr H. injection H as _ <- _. reflexivity. Qed.

Lemma keeps_emit {B : Type} (part : VLCPlayerManager -> B) (e : event) :
  keeps part (emit e).
Proof. intros pm r pm' tr H. injection H as _ <- _. reflexivity. Qed.

Lemma keeps_read {A B : Type} (part : VLCPlayerManager -> B)
  (f : VLCPlayerManager -> A) : keeps part (read f).
Proof. intros pm r pm' tr H. injection H as _ <- _. reflexivity. Qed.

Lemma keeps_call {B : Type} (part : VLCPlayerManager -> B) (renderer : Renderer)
  (p : prim) : keeps part (call renderer p).
Proof.
  intros pm r pm' tr. unfold call.
  destruct (raises renderer p); intros H; injection H as _ <- _; reflexivity.
Qed.

Lemma keeps_modify {B : Type} (part : VLCPlayerManager -> B)
  (f : VLCPlayerManager -> VLCPlayerManager) :
  (forall pm, part (f pm) = part pm) -> keeps part (modify f).
Proof. intros Hf pm r pm' tr H. injection H as _ <- _. apply Hf. Qed.

Lemma keeps_bind {A B C : Type} (part : VLCPlayerManager -> C) (m : M A)
  (k : A -> M B) :
  keeps part m -> (forall a, keeps part (k a)) -> keeps part (bind m k).
Proof.
  intros Hm Hk pm r pm' tr. unfold bind.
  destruct (m pm) as [[[a|e] pm1] tr1] eqn:E.
  - destruct (k a pm1) as [[r2 pm2] tr2] eqn:K. intros H. injection H as _ <- _.
    rewrite (Hk a _ _ _ _ K). apply (Hm _ _ _ _ E).
  - intros H. injection H as _ <- _. apply (Hm _ _ _ _ E).
Qed.

Lemma keeps_for_each {A B : Type} (part : VLCPlayerManager -> B) (l : list A)
  (body : A -> M unit) :
  (forall x, keeps part (body x)) -> keeps part (for_each l body).
Proof.
  intros Hb. induction l as [|x l IH]; simpl.
  - apply keeps_ret.
  - apply keeps_bind; [apply Hb | intros _; exact IH].
Qed.

Lemma keeps_audio_set_volume {B : Type} (part : VLCPlayerManager -> B)
  (renderer : Renderer) (v : Z) :
  (forall w pm, part (set_volume w pm) = part pm) ->
  keeps part (audio_set_volume renderer v).
Proof.
  intros Hp. unfold audio_set_volume.
  apply keeps_bind; [apply keeps_call | intros _].
  apply keeps_bind; [apply keeps_modify; apply Hp | intros _; apply keeps_emit].
Qed.

Lemma keeps_fade_out {B : Type} (part : VLCPlayerManager -> B)
  (renderer : Renderer) (fade : Q) :
  (forall w pm, part (set_volume w pm) = part pm) ->
  keeps part (_fade_out renderer fade).
Proof.
  intros Hp. unfold _fade_out, audio_get_volume.
  apply keeps_bind.
  - apply keeps_bind; [apply keeps_call | intros _; apply keeps_read].
  - intros cv. apply keeps_for_each. intros i.
    apply keeps_bind; [apply keeps_audio_set_volume; exact Hp | intros _].
    apply keeps_emit.
Qed.

Lemma keeps_is_playing {B : Type} (part : VLCPlayerManager -> B)
  (renderer : Renderer) : keeps part (is_playing renderer).
Proof.
  unfold is_playing. apply keeps_bind; [apply keeps_call | intros _; apply keeps_read].
Qed.

Lemma keeps_show_web_content {B : Type} (part : VLCPlayerManager -> B)
  (renderer : Renderer) (url : string) :
  keeps part (_show_web_content renderer url).
Proof.
  unfold _show_web_content.
  apply keeps_bind; [apply keeps_call | intros _].
  apply keeps_bind; [apply keeps_emit | intros _].
  apply keeps_bind; [apply keeps_call | intros _; apply keeps_emit].
Qed.

Lemma keeps_fade_then {A B : Type} (part : VLCPlayerManager -> B)
  (renderer : Renderer) (k : M A) :
  (forall w pm, part (set_volume w pm) = part pm) ->
  keeps part k ->
  keeps part (p <- is_playing renderer ;;
              (if p : bool then _fade_out renderer default_fade else ret tt) ;;; k).
Proof.
  intros Hp Hk.
  apply keeps_bind; [apply keeps_is_playing | intros p].
  apply keeps_bind; [|intros _; exact Hk].
  destruct p; [apply keeps_fade_out; exact Hp | apply keeps_ret].
Qed.

Lemma body_ok_not_transitioning (renderer : Renderer) (content : Content)
  (pm pm1 : VLCPlayerManager) (tr1 : list event) :
  type content <> WEB ->
  play_content_body renderer content pm = (Ok tt, pm1, tr1) ->
  is_transitioning pm1 = false.
Proof.
  intros Hty H. unfold play_content_body in H.
  apply bind_ok_inv in H. destruct H as (? & ? & ? & ? & _ & H & _).
  apply bind_ok_inv in H. destruct H as (? & ? & ? & ? & _ & H & _).
  apply bind_ok_inv in H. destruct H as (? & ? & ? & ? & _ & H & _).
  destruct (type content); [| |congruence];
    repeat (apply bind_ok_inv in H; destruct H as (? & ? & ? & ? & _ & H & _));
    injection H as <- _; reflexivity.
Qed.

Lemma body_web_transitioning (renderer : Renderer) (content : Content)
  (pm pm1 : VLCPlayerManager) (r : result unit) (tr1 : list event) :
  type content = WEB ->
  play_content_body renderer content pm = (r, pm1, tr1) ->
  is_transitioning pm1 = true.
Proof.
  intros Hty H. unfold play_content_body in H. rewrite Hty in H.
  unfold bind at 1 in H. cbn [modify] in H.
  match type of H with
  | context [bind (is_playing renderer) ?k (set_transitioning true pm)] =>
      destruct (bind (is_playing renderer) k (set_transitioning true pm))
        as [[r2 pm2] tr2] eqn:K
  end.
  assert (T : is_transitioning pm2 = is_transitioning (set_transitioning true pm)).
  { revert K. apply keeps_fade_then.
    - intros w pm0. reflexivity.
    - apply keeps_show_web_content. }
  injection H as _ <- _. exact T.
Qed.

(** X8. What [play_content] leaves in [is_transitioning], on any renderer
    and from any state.  It always returns normally.  For an image or a
    video the flag is cleared at the end, whether the load worked or
    raised.  For web content the flag is cleared only when something
    raised; when the page was shown the function returns from inside the
    [try] and the flag stays set. *)
Theorem transitioning_flag_after_play (renderer : Renderer) (content : Content)
  (pm : VLCPlayerManager) :
  fst (fst (play_content renderer content pm)) = Ok tt /\
  (type content <> WEB ->
     is_transitioning (snd (fst (play_content renderer content pm))) = false) /\
  (type content = WEB ->
     is_transitioning (snd (fst (play_content renderer content pm)))
     = match fst (fst (play_content_body renderer content pm)) with
       | Ok _ => true
       | Raise _ => false
       end).
Proof.
  destruct (play_content_body renderer content pm) as [[[[]|e] pm1] tr1] eqn:B.
  - assert (P : play_content renderer content pm = (Ok tt, pm1, tr1)).
    { unfold play_content, try_except. rewrite B. reflexivity. }
    rewrite P. cbn [fst snd]. split; [reflexivity|]. split.
    + intros Hty. eapply body_ok_not_transitioning; eauto.
    + intros Hty. eapply body_web_transitioning; eauto.
  - rewrite (play_content_raised _ _ _ _ _ _ B). cbn [fst snd].
    split; [reflexivity|]. split; intros _; reflexivity.
Qed.

(** ** [play_content] on a renderer that works, and on one that does not *)

Lemma media_new_run (renderer : Renderer) (location : string) (pm : VLCPlayerManager) :
  raises renderer (PMediaNew location) = None ->
  media_new renderer location pm = (Ok location, pm, []).
Proof.
  intros H. unfold media_new. rewrite (bind_ok _ _ _ _ _ _ (call_ok _ _ _ H)).
  reflexivity.
Qed.

Lemma media_new_raise (renderer : Renderer) (location : string)
  (pm : VLCPlayerManager) (e : string) :
  raises renderer (PMediaNew location) = Some e ->
  media_new renderer location pm = (Raise e, pm, []).
Proof.
  intros H. unfold media_new. apply bind_raise. apply call_raise. exact H.
Qed.

Lemma play_run (renderer : Renderer) (pm : VLCPlayerManager) :
  raises renderer PPlay = None ->
  play renderer pm
  = (Ok (play_status renderer), set_playing (play_status renderer =? 0) pm, [EvPlay]).
Proof.
  intros H. unfold play. rewrite (bind_ok _ _ _ _ _ _ (call_ok _ _ _ H)).
  reflexivity.
Qed.

Lemma elapsed_app (tr1 tr2 : list event) :
  (elapsed (tr1 ++ tr2) == elapsed tr1 + elapsed tr2)%Q.
Proof.
  induction tr1 as [|e tr1 IH]; simpl.
  - ring.
  - destruct e; try exact IH. rewrite IH. ring.
Qed.

Lemma elapsed_default_fade (level_at : Z -> Z) (l : list Z) :
  length l = 20%nat ->
  (elapsed (fade_trace level_at (default_fade / inject_Z 20) l) == 1 # 2)%Q.
Proof.
  intros Hl. rewrite elapsed_fade_trace, Hl. reflexivity.
Qed.

Ltac run_step H :=
  first
    [ rewrite (bind_ok _ _ _ _ _ _ (is_playing_run _ _ (H _)))
    | rewrite (bind_ok _ _ _ _ _ _ (fade_out_run_on _ _ _ (H _) (fun v => H _)))
    | rewrite (bind_ok _ _ _ _ _ _ (fade_in_run_on _ _ _ (fun v => H _)))
    | rewrite (bind_ok _ _ _ _ _ _ (media_new_run _ _ _ (H _)))
    | rewrite (bind_ok _ _ _ _ _ _ (play_run _ _ (H _)))
    | rewrite (bind_ok _ _ _ _ _ _ (call_ok _ _ _ (H _)))
    | rewrite (bind_ok (modify _) _ _ _ _ _ eq_refl)
    | rewrite (bind_ok (emit _) _ _ _ _ _ eq_refl)
    | rewrite (bind_ok (ret _) _ _ _ _ _ eq_refl) ];
  cbv beta iota.

Lemma body_on_working_renderer (renderer : Renderer) (content : Content)
  (pm : VLCPlayerManager) :
  (forall p, raises renderer p = None) ->
  type content <> WEB ->
  play_content_body renderer content pm =
    (Ok tt,
     {| playing := play_status renderer =? 0; volume := 100;
        current_media := Some (path content); is_transitioning := false |},
     (if playing pm
      then fade_trace (fun i => Py.int_div (volume pm * i) 20)
                      (default_fade / inject_Z 20) (Py.range_down_from 20)
      else [])
     ++ [EvSetMedia (path content); EvPlay]
     ++ fade_trace (fun i => Py.int_div (100 * i) 20)
                   (default_fade / inject_Z 20) (Py.range_up_to 20)).
Proof.
  intros H Hty. unfold play_content_body.
  run_step H. run_step H. cbn [playing set_transitioning].
  destruct (playing pm); destruct (type content); try congruence;
    repeat run_step H; unfold modify; cbn [app]; rewrite ?app_nil_r;
    reflexivity.
Qed.

(** X9. [play_content] of an image or a video on a renderer on which no
    call raises: it returns normally with the new media set, the level
    at 100 and [is_transitioning] cleared; it logs nothing; it fades the
    old level out first exactly when the player was playing; and it takes
    one fade window (0.5 s) when the player was idle and two (1 s) when
    it was playing. *)
Theorem play_content_on_working_renderer (renderer : Renderer)
  (content : Content) (pm : VLCPlayerManager) :
  (forall p, raises renderer p = None) ->
  type content <> WEB ->
  exists pm' tr,
    play_content renderer content pm = (Ok tt, pm', tr) /\
    current_media pm' = Some (path content) /\
    volume pm' = 100 /\
    is_transitioning pm' = false /\
    In (EvSetMedia (path content)) tr /\
    after_error tr = None /\
    levels tr =
      (if playing pm
       then map (fun i => Z.quot (volume pm * i) 20) (Py.range_down_from 20)
       else [])
      ++ map (fun i => 5 * i) (Py.range_up_to 20) /\
    (elapsed tr == if playing pm then 1 else 1 # 2)%Q.
Proof.
  intros H Hty. eexists _, _. split.
  - unfold play_content, try_except.
    rewrite (body_on_working_renderer renderer content pm H Hty). reflexivity.
  - split; [reflexivity|]. split; [reflexivity|]. split; [reflexivity|].
    split; [apply in_or_app; right; left; reflexivity|].
    destruct (playing pm).
    + split; [reflexivity|]. split; [reflexivity|].
      rewrite elapsed_app, elapsed_default_fade by reflexivity.
      change (elapsed ([EvSetMedia (path content); EvPlay] ++ ?t)) with (elapsed t).
      rewrite elapsed_default_fade by reflexivity. reflexivity.
    + split; [reflexivity|]. split; [reflexivity|].
      change (elapsed ([] ++ [EvSetMedia (path content); EvPlay] ++ ?t))
        with (elapsed t).
      rewrite elapsed_default_fade by reflexivity. reflexivity.
Qed.

(** X9 at a concrete input: the image [A] on an idle player. *)
Lemma play_content_on_working_renderer_witness :
  exists pm' tr,
    play_content Examples.quiet Examples.A (new_player 50) = (Ok tt, pm', tr) /\
    current_media pm' = Some (path Examples.A) /\
    volume pm' = 100 /\
    is_transitioning pm' = false /\
    In (EvSetMedia (path Examples.A)) tr /\
    after_error tr = None /\
    levels tr =
      (if playing (new_player 50)
       then map (fun i => Z.quot (volume (new_player 50) * i) 20)
                (Py.range_down_from 20)
       else [])
      ++ map (fun i => 5 * i) (Py.range_up_to 20) /\
    (elapsed tr == if playing (new_player 50) then 1 else 1 # 2)%Q.
Proof.
  apply (play_content_on_working_renderer Examples.quiet Examples.A (new_player 50)).
  - intros p. reflexivity.
  - simpl. discriminate.
Defined.

(** X10. A load that fails after the fade-out.  When the player is
    playing and the renderer cannot open the new file (image or video),
    [play_content] has already faded the level down: it returns with the
    error logged, the old media still set and still playing, but at a
    twentieth of its level; the level is not restored. *)
Theorem failed_load_leaves_old_media_faded (renderer : Renderer)
  (content : Content) (pm : VLCPlayerManager) (e : string) :
  playing pm = true ->
  type content <> WEB ->
  raises renderer PIsPlaying = None ->
  raises renderer PGetVolume = None ->
  (forall v, raises renderer (PSetVolume v) = None) ->
  raises renderer (PMediaNew (path content)) = Some e ->
  play_content renderer content pm =
    (Ok tt,
     {| playing := true; volume := Z.quot (volume pm) 20;
        current_media := current_media pm; is_transitioning := false |},
     fade_trace (fun i => Py.int_div (volume pm * i) 20)
                (default_fade / inject_Z 20) (Py.range_down_from 20)
     ++ [EvLogError (error_message e)]).
Proof.
  intros Hp Hty Hi Hg Hs Hm.
  assert (B : play_content_body renderer content pm =
              (Raise e,
               set_volume (Z.quot (volume pm) 20) (set_transitioning true pm),
               fade_trace (fun i => Py.int_div (volume pm * i) 20)
                          (default_fade / inject_Z 20) (Py.range_down_from 20))).
  { unfold play_content_body.
    rewrite (bind_ok (modify _) _ _ _ _ _ eq_refl). cbv beta iota.
    rewrite (bind_ok _ _ _ _ _ _ (is_playing_run _ _ Hi)). cbv beta iota.
    cbn [playing set_transitioning]. rewrite Hp.
    rewrite (bind_ok _ _ _ _ _ _ (fade_out_run_on _ _ _ Hg Hs)). cbv beta iota.
    destruct (type content); try congruence;
      rewrite (bind_raise _ _ _ _ _ _ (media_new_raise _ _ _ _ Hm));
      cbn [app volume set_transitioning]; rewrite app_nil_r; reflexivity. }
  rewrite (play_content_raised _ _ _ _ _ _ B).
  unfold set_transitioning, set_volume. cbn. rewrite Hp. reflexivity.
Qed.

(** X10 at a concrete input: a player playing at level 100 asked for [A]
    on the renderer that cannot open it. *)
Lemma failed_load_leaves_old_media_faded_witness :
  play_content Examples.poison Examples.A
    {| playing := true; volume := 100;
       current_media := Some "/content/b"%string; is_transitioning := false |} =
    (Ok tt,
     {| playing := true; volume := Z.quot 100 20;
        current_media := Some "/content/b"%string; is_transitioning := false |},
     fade_trace (fun i => Py.int_div (100 * i) 20)
                (default_fade / inject_Z 20) (Py.range_down_from 20)
     ++ [EvLogError (error_message "cannot open")]).
Proof.
  apply (failed_load_leaves_old_media_faded Examples.poison Examples.A
           {| playing := true; volume := 100;
              current_media := Some "/content/b"%string;
              is_transitioning := false |} "cannot open").
  - reflexivity.
  - simpl. discriminate.
  - reflexivity.
  - reflexivity.
  - intros v. reflexivity.
  - reflexivity.
Defined.

(** ** The two back ends *)

Lemma emits_ret {A : Type} (allowed : event -> bool) (a : A) :
  emits_only allowed (ret a).
Proof. intros pm r pm' tr H. injection H as _ _ <-. reflexivity. Qed.

Lemma emits_read {A : Type} (allowed : event -> bool) (f : VLCPlayerManager -> A) :
  emits_only allowed (read f).
Proof. intros pm r pm' tr H. injection H as _ _ <-. reflexivity. Qed.

Lemma emits_modify (allowed : event -> bool)
  (f : VLCPlayerManager -> VLCPlayerManager) : emits_only allowed (modify f).
Proof. intros pm r pm' tr H. injection H as _ _ <-. reflexivity. Qed.

Lemma emits_call (allowed : event -> bool) (renderer : Renderer) (p : prim) :
  emits_only allowed (call renderer p).
Proof.
  intros pm r pm' tr. unfold call.
  destruct (raises renderer p); intros H; injection H as _ _ <-; reflexivity.
Qed.

Lemma emits_emit (allowed : event -> bool) (e : event) :
  allowed e = true -> emits_only allowed (emit e).
Proof. intros He pm r pm' tr H. injection H as _ _ <-. simpl. rewrite He. reflexivity. Qed.

Lemma emits_bind {A B : Type} (allowed : event -> bool) (m : M A) (k : A -> M B) :
  emits_only allowed m -> (forall a, emits_only allowed (k a)) ->
  emits_only allowed (bind m k).
Proof.
  intros Hm Hk pm r pm' tr. unfold bind.
  destruct (m pm) as [[[a|e] pm1] tr1] eqn:E.
  - destruct (k a pm1) as [[r2 pm2] tr2] eqn:K. intros H. injection H as _ _ <-.
    rewrite forallb_app, (Hm _ _ _ _ E), (Hk a _ _ _ _ K). reflexivity.
  - intros H. injection H as _ _ <-. apply (Hm _ _ _ _ E).
Qed.

Lemma emits_for_each {A : Type} (allowed : event -> bool) (l : list A)
  (body : A -> M unit) :
  (forall x, emits_only allowed (body x)) -> emits_only allowed (for_each l body).
Proof.
  intros Hb. induction l as [|x l IH]; simpl.
  - apply emits_ret.
  - apply emits_bind; [apply Hb | intros _; exact IH].
Qed.

Lemma emits_try_except {A : Type} (allowed : event -> bool) (m : M A)
  (h : string -> M A) :
  emits_only allowed m -> (forall e, emits_only allowed (h e)) ->
  emits_only allowed (try_except m h).
Proof.
  intros Hm Hh pm r pm' tr. unfold try_except.
  destruct (m pm) as [[[a|e] pm1] tr1] eqn:E.
  - intros H. injection H as _ _ <-. apply (Hm _ _ _ _ E).
  - destruct (h e pm1) as [[r2 pm2] tr2] eqn:K. intros H. injection H as _ _ <-.
    rewrite forallb_app, (Hm _ _ _ _ E), (Hh e _ _ _ _ K). reflexivity.
Qed.

Lemma keeps_try_except {A B : Type} (part : VLCPlayerManager -> B) (m : M A)
  (h : string -> M A) :
  keeps part m -> (forall e, keeps part (h e)) -> keeps part (try_except m h).
Proof.
  intros Hm Hh pm r pm' tr. unfold try_except.
  destruct (m pm) as [[[a|e] pm1] tr1] eqn:E.
  - intros H. injection H as _ <- _. apply (Hm _ _ _ _ E).
  - destruct (h e pm1) as [[r2 pm2] tr2] eqn:K. intros H. injection H as _ <- _.
    rewrite (Hh e _ _ _ _ K). apply (Hm _ _ _ _ E).
Qed.

Ltac emits :=
  repeat first
    [ apply emits_ret | apply emits_read | apply emits_modify | apply emits_call
    | apply emits_emit; reflexivity
    | apply emits_for_each; intros ?
    | apply emits_try_except; [|intros ?]
    | apply emits_bind; [|intros ?] ].

Lemma image_or_video_spares_browser (renderer : Renderer) (content : Content) :
  type content <> WEB ->
  emits_only (fun e => negb (browser_event e)) (play_content renderer content).
Proof.
  intros Hty. unfold play_content, play_content_body.
  apply emits_try_except; [|intros e; emits].
  apply emits_bind; [emits | intros _].
  apply emits_bind; [unfold is_playing; emits | intros p].
  apply emits_bind.
  - destruct p; [|emits]. unfold _fade_out, audio_get_volume, audio_set_volume, sleep.
    emits.
  - intros _. destruct (type content); try congruence;
      unfold media_new, play, _fade_in, audio_set_volume, sleep; emits.
Qed.

Lemma web_spares_player (renderer : Renderer) (content : Content) :
  type content = WEB ->
  emits_only (fun e => negb (media_event e)) (play_content renderer content) /\
  keeps current_media (play_content renderer content) /\
  keeps playing (play_content renderer content).
Proof.
  intros Hty. unfold play_content, play_content_body. rewrite Hty.
  split; [|split].
  - apply emits_try_except; [|intros e; emits].
    apply emits_bind; [emits | intros _].
    apply emits_bind; [unfold is_playing; emits | intros p].
    apply emits_bind.
    + destruct p; [|emits].
      unfold _fade_out, audio_get_volume, audio_set_volume, sleep. emits.
    + intros _. unfold _show_web_content. emits.
  - apply keeps_try_except.
    + apply keeps_bind; [apply keeps_modify; reflexivity | intros _].
      apply keeps_fade_then; [reflexivity | apply keeps_show_web_content].
    + intros e. apply keeps_bind; [apply keeps_emit | intros _].
      apply keeps_modify. reflexivity.
  - apply keeps_try_except.
    + apply keeps_bind; [apply keeps_modify; reflexivity | intros _].
      apply keeps_fade_then; [reflexivity | apply keeps_show_web_content].
    + intros e. apply keeps_bind; [apply keeps_emit | intros _].
      apply keeps_modify. reflexivity.
Qed.

(** X11. The two back ends never hand over.  On any renderer and from any
    state, [play_content] of an image or a video makes no call on the
    browser: a page shown before is neither closed nor replaced.  And
    [play_content] of web content makes no call that sets or starts
    media and leaves the player's media and playing state as they were:
    a video that was playing goes on playing behind the page. *)
Theorem back_ends_never_hand_over (renderer : Renderer) (content : Content)
  (pm : VLCPlayerManager) :
  (type content <> WEB ->
     forallb (fun e => negb (browser_event e))
             (snd (play_content renderer content pm)) = true) /\
  (type content = WEB ->
     forallb (fun e => negb (media_event e))
             (snd (play_content renderer content pm)) = true /\
     current_media (snd (fst (play_content renderer content pm))) = current_media pm /\
     playing (snd (fst (play_content renderer content pm))) = playing pm).
Proof.
  destruct (play_content renderer content pm) as [[r pm'] tr] eqn:P. cbn [fst snd].
  split.
  - intros Hty. exact (image_or_video_spares_browser renderer content Hty _ _ _ _ P).
  - intros Hty. destruct (web_spares_player renderer content Hty) as (He & Hm & Hp).
    split; [exact (He _ _ _ _ P)|]. split; [exact (Hm _ _ _ _ P) | exact (Hp _ _ _ _ P)].
Qed.

(** ** Observers coming and going *)

Lemma list_remove_absent (x : EventSink.Client) (l : list EventSink.Client) :
  ~ In x l -> Py.list_remove Nat.eqb x l = None.
Proof.
  induction l as [|y l IH]; simpl; intros H; [reflexivity|].
  destruct (Nat.eqb x y) eqn:E.
  - apply Nat.eqb_eq in E. subst. exfalso. apply H. left. reflexivity.
  - rewrite IH; [reflexivity|]. intros Hin. apply H. right. exact Hin.
Qed.

Lemma list_remove_middle (x : EventSink.Client) (l1 l2 : list EventSink.Client) :
  ~ In x l1 -> Py.list_remove Nat.eqb x (l1 ++ x :: l2) = Some (l1 ++ l2).
Proof.
  induction l1 as [|y l1 IH]; simpl; intros H.
  - rewrite Nat.eqb_refl. reflexivity.
  - destruct (Nat.eqb x y) eqn:E.
    + apply Nat.eqb_eq in E. subst. exfalso. apply H. left. reflexivity.
    + rewrite IH; [reflexivity|]. intros Hin. apply H. right. exact Hin.
Qed.

Lemma notify_result (Message : Type) (send_json : EventSink.Client -> Message -> bool)
  (clients : list EventSink.Client) (message : Message) :
  EventSink.notify_clients Message send_json clients message
  = (Some (filter (fun c => send_json c message) clients),
     map (fun c => (c, send_json c message)) clients).
Proof.
  unfold EventSink.notify_clients. rewrite send_loop_spec. simpl.
  rewrite remove_loop_prunes. reflexivity.
Qed.

(** X12. A disconnect takes out exactly the observer that disconnects.
    For an observer that connected when it was not in the list, whatever
    observers connected before and after it, the endpoint's [remove]
    succeeds and leaves all the others, in their order. *)
Theorem disconnect_removes_that_client (s : ContentScheduler)
  (before later : list EventSink.Client) (websocket : EventSink.Client) :
  ~ In websocket before ->
  Api.websocket_disconnect websocket
    (fold_left (fun app ws => Api.websocket_connect ws app) later
       (Api.websocket_connect websocket
          {| Api.scheduler := s; Api.websocket_clients := before |}))
  = Some {| Api.scheduler := s; Api.websocket_clients := before ++ later |}.
Proof.
  intros H.
  assert (F : forall l app,
             fold_left (fun app ws => Api.websocket_connect ws app) l app
             = {| Api.scheduler := Api.scheduler app;
                  Api.websocket_clients := Api.websocket_clients app ++ l |}).
  { induction l as [|w l IH]; intros app; simpl.
    - rewrite app_nil_r. destruct app; reflexivity.
    - rewrite IH. simpl. rewrite <- app_assoc. reflexivity. }
  rewrite F. unfold Api.websocket_disconnect, Api.websocket_connect.
  cbn [Api.websocket_clients Api.scheduler].
  rewrite <- app_assoc. change ([websocket] ++ later) with (websocket :: later).
  rewrite (list_remove_middle websocket before later H). reflexivity.
Qed.

(** X12 at a concrete input: observer 2 connects after 1 and before 3. *)
Lemma disconnect_removes_that_client_witness :
  Api.websocket_disconnect 2%nat
    (fold_left (fun app ws => Api.websocket_connect ws app) [3%nat]
       (Api.websocket_connect 2%nat
          {| Api.scheduler := init; Api.websocket_clients := [1%nat] |}))
  = Some {| Api.scheduler := init; Api.websocket_clients := [1%nat] ++ [3%nat] |}.
Proof.
  apply (disconnect_removes_that_client init [1%nat] [3%nat] 2%nat).
  simpl. intros [H | []]. discriminate H.
Defined.

(** X13. An observer pruned by [notify_clients] is removed a second time
    when its connection closes.  If the send to a subscribed observer
    fails, the notification takes it off the list; the [remove] that the
    endpoint runs on [WebSocketDisconnect] then finds nothing to remove
    and raises [ValueError]. *)
Theorem pruned_client_disconnect_raises (Message : Type)
  (send_json : EventSink.Client -> Message -> bool) (s : ContentScheduler)
  (clients : list EventSink.Client) (message : Message)
  (websocket : EventSink.Client) :
  In websocket clients ->
  send_json websocket message = false ->
  exists remaining attempts,
    EventSink.notify_clients Message send_json clients message
    = (Some remaining, attempts) /\
    In (websocket, false) attempts /\
    ~ In websocket remaining /\
    Api.websocket_disconnect websocket
      {| Api.scheduler := s; Api.websocket_clients := remaining |} = None.
Proof.
  intros Hin Hf. rewrite notify_result.
  eexists _, _. split; [reflexivity|].
  assert (Hn : ~ In websocket (filter (fun c => send_json c message) clients)).
  { intros H. apply filter_In in H. destruct H as [_ H]. congruence. }
  split; [|split; [exact Hn|]].
  - apply in_map_iff. exists websocket. split; [rewrite Hf; reflexivity | exact Hin].
  - unfold Api.websocket_disconnect. simpl.
    rewrite (list_remove_absent _ _ Hn). reflexivity.
Qed.

(** X13 at a concrete input: observers 1, 2, 3, the send to 2 failing. *)
Lemma pruned_client_disconnect_raises_witness :
  exists remaining attempts,
    EventSink.notify_clients nat (fun c _ => negb (Nat.eqb c 2))
      [1; 2; 3]%nat 0%nat = (Some remaining, attempts) /\
    In (2%nat, false) attempts /\
    ~ In 2%nat remaining /\
    Api.websocket_disconnect 2%nat
      {| Api.scheduler := init; Api.websocket_clients := remaining |} = None.
Proof.
  apply (pruned_client_disconnect_raises nat (fun c _ => negb (Nat.eqb c 2))
           init [1; 2; 3]%nat 0%nat 2%nat).
  - simpl. right. left. reflexivity.
  - reflexivity.
Defined.

(** X14. Pruning is done once.  After a notification, a second
    notification with the same message, the observers answering as
    before, reaches every observer left on the list, fails for none and
    removes none. *)
Theorem second_notification_prunes_nothing (Message : Type)
  (send_json : EventSink.Client -> Message -> bool)
  (clients : list EventSink.Client) (message : Message) :
  exists remaining attempts,
    EventSink.notify_clients Message send_json clients message
    = (Some remaining, attempts) /\
    EventSink.notify_clients Message send_json remaining message
    = (Some remaining, map (fun c => (c, true)) remaining).
Proof.
  rewrite notify_result. eexists _, _. split; [reflexivity|].
  rewrite notify_result. f_equal.
  - f_equal. induction clients as [|c l IH]; [reflexivity|].
    simpl. destruct (send_json c message) eqn:E; [|exact IH].
    simpl. rewrite E, IH. reflexivity.
  - apply map_ext_in. intros c H. apply filter_In in H. destruct H as [_ H].
    rewrite H. reflexivity.
Qed.

(** ** The request handlers *)

Section HandlerFacts.

Variable send_json : EventSink.Client -> Api.message -> bool.

Lemma notify_then_result {A : Type} (s : ContentScheduler)
  (clients : list EventSink.Client) (fs : list Api.fs_event) (m : Api.message)
  (k : Api.response A) :
  Api.notify_then send_json s clients fs m k
  = (k,
     {| Api.scheduler := s;
        Api.websocket_clients := filter (fun c => send_json c m) clients |},
     fs,
     map (fun c => (c, send_json c m)) clients).
Proof. unfold Api.notify_then. rewrite notify_result. reflexivity. Qed.

(** X15. [delete_content] answers 404 exactly for the ids the catalog
    does not hold, and then changes nothing and tells no observer.  For
    an id the catalog holds it removes the file of that Content, deletes
    the entry, leaves the playlist and the cursor alone, sends
    [content_deleted] to every observer and answers "deleted"; the same
    request repeated is answered 404. *)
Theorem delete_content_answers (app : Api.App) (content_id : string) :
  (Dict.contains (content_db (Api.scheduler app)) content_id = false ->
     Api.delete_content send_json app content_id
     = (Api.Raised (Api.HTTPException 404 "Content not found"), app, [], [])) /\
  (forall content,
     Dict.get (content_db (Api.scheduler app)) content_id = Some content ->
     exists app',
       Api.delete_content send_json app content_id
       = (Api.Return "deleted"%string, app', [Api.FsRemove (path content)],
          map (fun c => (c, send_json c (Api.content_deleted content_id)))
              (Api.websocket_clients app)) /\
       Dict.get (content_db (Api.scheduler app')) content_id = None /\
       (forall k, k <> content_id ->
          Dict.get (content_db (Api.scheduler app')) k
          = Dict.get (content_db (Api.scheduler app)) k) /\
       current_playlist (Api.scheduler app') = current_playlist (Api.scheduler app) /\
       current_index (Api.scheduler app') = current_index (Api.scheduler app) /\
       Api.delete_content send_json app' content_id
       = (Api.Raised (Api.HTTPException 404 "Content not found"), app', [], [])).
Proof.
  split.
  - intros H. unfold Api.delete_content. rewrite H. reflexivity.
  - intros content G.
    assert (C : Dict.contains (content_db (Api.scheduler app)) content_id = true).
    { apply contains_get. exists content. exact G. }
    eexists. split.
    + unfold Api.delete_content. rewrite C, G. simpl negb. cbv iota.
      apply notify_then_result.
    + cbn [Api.scheduler].
      destruct (remove_content_frame (Api.scheduler app) content_id) as (Hp & Hi & _).
      assert (N : Dict.get (content_db (remove_content (Api.scheduler app) content_id))
                           content_id = None).
      { rewrite remove_content_db. apply get_del_same. }
      split; [exact N|]. split; [|split; [exact Hp|split; [exact Hi|]]].
      * intros k Hk. rewrite remove_content_db. apply get_del_other. exact Hk.
      * unfold Api.delete_content. cbn [Api.scheduler].
        unfold Dict.contains. rewrite N. reflexivity.
Qed.

(** X16. The handler of [POST /api/playlist] never refuses a request: for
    any list of ids, known or not, it answers "updated", replaces the
    playlist by what the ids resolve to, puts the cursor at 0, and sends
    every observer [playlist_updated] with the ids as they were
    requested, the unknown ones included. *)
Theorem post_playlist_answers (app : Api.App) (ids : list string) :
  exists s',
    update_playlist (Api.scheduler app) ids = Some s' /\
    current_index s' = 0 /\
    content_db s' = content_db (Api.scheduler app) /\
    Api.post_playlist send_json app ids
    = (Api.Return "updated"%string,
       {| Api.scheduler := s';
          Api.websocket_clients :=
            filter (fun c => send_json c (Api.playlist_updated ids))
                   (Api.websocket_clients app) |},
       [],
       map (fun c => (c, send_json c (Api.playlist_updated ids)))
           (Api.websocket_clients app)).
Proof.
  unfold Api.post_playlist, update_playlist.
  destruct (resolve_ids_total (content_db (Api.scheduler app)) ids) as [l Hl].
  rewrite Hl. eexists. split; [reflexivity|].
  split; [reflexivity|]. split; [reflexivity|].
  apply notify_then_result.
Qed.

Variable str : Api.exn -> string.
Variable md5_hexdigest : string -> string.
Variable path_join : string -> string -> string.
Variable images_dir videos_dir : string.
Variable write_fails : string -> option string.
Variable thumbnail_fails : string -> option string.

Let upload := Api.upload_content send_json str md5_hexdigest path_join
                images_dir videos_dir write_fails thumbnail_fails.

(** X17. An upload either succeeds as a whole or changes nothing in the
    application.  When [upload_content] returns a Content, that Content
    carries the id, the name and the duration of the request, is in the
    catalog under its id, every observer was sent [content_added], and
    the playlist and the cursor are as before.  In every other case the
    answer is an HTTP error of status 500, the catalog and the observers
    are as before, and nothing was sent. *)
Theorem upload_succeeds_or_changes_nothing (app : Api.App) (file : Api.UploadFile)
  (duration_ : Z) (new_id : string) (now_ : Z) :
  match upload app file duration_ new_id now_ with
  | (Api.Return content, app', fs, sends) =>
      id content = new_id /\
      Api.filename file = Some (name content) /\
      duration content = duration_ /\
      type content <> WEB /\
      Dict.get (content_db (Api.scheduler app')) new_id = Some content /\
      current_playlist (Api.scheduler app') = current_playlist (Api.scheduler app) /\
      current_index (Api.scheduler app') = current_index (Api.scheduler app) /\
      sends = map (fun c => (c, send_json c (Api.content_added content)))
                  (Api.websocket_clients app)
  | (Api.Raised e, app', fs, sends) =>
      (exists detail, e = Api.HTTPException 500 detail) /\
      app' = app /\ sends = []
  end.
Proof.
  unfold upload, Api.upload_content, Api.upload_body.
  destruct (Api.classify images_dir videos_dir file) as [[ty dir]|e] eqn:C.
  2:{ split; [eexists; reflexivity | split; reflexivity]. }
  destruct (Api.filename file) as [fname|] eqn:F.
  2:{ split; [eexists; reflexivity | split; reflexivity]. }
  destruct (write_fails _) as [w|].
  { split; [eexists; reflexivity | split; reflexivity]. }
  assert (Hty : ty <> WEB).
  { unfold Api.classify in C. destruct (Api.content_type file) as [ct|]; [|discriminate].
    destruct (String.prefix "image/" ct); [injection C as <- _; discriminate|].
    destruct (String.prefix "video/" ct); [injection C as <- _; discriminate|].
    discriminate. }
  destruct (match ty with IMAGE => thumbnail_fails _ | _ => None end) as [w|].
  { split; [eexists; reflexivity | split; reflexivity]. }
  rewrite notify_then_result. cbn [Api.scheduler id name duration type].
  repeat split; try assumption.
  unfold add_content. simpl. apply get_set_same.
Qed.

(** X18. A file of a kind the program does not take is answered with
    status 500, not 400.  When the content type is missing or is neither
    an image nor a video type, the [HTTPException(400)] (or the
    [AttributeError]) raised inside the [try] is caught by the handler's
    own [except] and turned into status 500; nothing is written, the
    application is unchanged and nothing is sent. *)
Theorem unsupported_upload_answers_500 (app : Api.App) (file : Api.UploadFile)
  (duration_ : Z) (new_id : string) (now_ : Z) :
  match Api.content_type file with
  | Some ct => String.prefix "image/" ct = false /\ String.prefix "video/" ct = false
  | None => True
  end ->
  upload app file duration_ new_id now_
  = (Api.Raised
       (Api.HTTPException 500
          (str match Api.content_type file with
               | Some _ => Api.HTTPException 400 "Unsupported file type"
               | None => Api.AttributeError
               end)),
     app, [], []).
Proof.
  intros H. unfold upload, Api.upload_content, Api.upload_body, Api.classify.
  destruct (Api.content_type file) as [ct|]; [|reflexivity].
  destruct H as [Hi Hv]. rewrite Hi, Hv. reflexivity.
Qed.

End HandlerFacts.

(** X18 at a concrete input: a PDF. *)
Lemma unsupported_upload_answers_500_witness :
  Api.upload_content (fun _ _ => true) (fun _ => "error"%string)
    (fun s => s) String.append "images/" "videos/" (fun _ => None) (fun _ => None)
    {| Api.scheduler := init; Api.websocket_clients := [1%nat] |}
    {| Api.filename := Some "doc.pdf"%string;
       Api.content_type := Some "application/pdf"%string |} 10 "id-1" 0
  = (Api.Raised (Api.HTTPException 500 "error"),
     {| Api.scheduler := init; Api.websocket_clients := [1%nat] |}, [], []).
Proof.
  apply (unsupported_upload_answers_500 (fun _ _ => true) (fun _ => "error"%string)
           (fun s => s) String.append "images/" "videos/" (fun _ => None)
           (fun _ => None)
           {| Api.scheduler := init; Api.websocket_clients := [1%nat] |}
           {| Api.filename := Some "doc.pdf"%string;
              Api.content_type := Some "application/pdf"%string |} 10 "id-1" 0).
  simpl. split; reflexivity.
Defined.

(** ** Upload and delete undo each other *)

Lemma del_set_absent {V : Type} (d : Dict.t V) (k : string) (v : V) :
  Dict.contains d k = false -> Dict.del (Dict.set d k v) k = d.
Proof.
  intros H. rewrite (set_absent _ _ _ H). unfold Dict.del.
  rewrite filter_app. simpl. rewrite String.eqb_refl. simpl. rewrite app_nil_r.
  apply (del_absent d k H).
Qed.

(** X19. Adding a Content whose id the catalog does not hold and then
    removing that id gives back the scheduler exactly as it was: the
    content map with its order, the playlist, the cursor and the
    schedules. *)
Theorem add_then_remove_restores (s : ContentScheduler) (c : Content) :
  Dict.contains (content_db s) (id c) = false ->
  remove_content (add_content s c) (id c) = s.
Proof.
  intros H. unfold remove_content, add_content. simpl.
  unfold Dict.contains at 1. rewrite get_set_same.
  unfold with_content_db. simpl. rewrite (del_set_absent _ _ _ H).
  destruct s; reflexivity.
Qed.

(** X19 at a concrete input: [B] added to the catalog [{a}] and removed. *)
Lemma add_then_remove_restores_witness :
  remove_content (add_content Examples.only_a Examples.B) (id Examples.B)
  = Examples.only_a.
Proof.
  apply (add_then_remove_restores Examples.only_a Examples.B). reflexivity.
Defined.
